(** * csim.c: a trace-driven simulator of a set-associative LRU cache

    Shallow embedding of [src/cache_simulation/csim.c] and the properties
    of its address decoding, recency bookkeeping, access classification
    and trace replay.

    Conventions of the embedding.
    - C [int] values are integers of [Z] kept in the 32-bit two's-complement
      range; [++] on an [int] is written out with its wrap-around
      ([int_incr]).  ISO C leaves signed overflow undefined; every theorem
      that speaks about "one more" carries the bound that keeps the
      increment inside the range.
    - [mem_addr_t] values are integers of [Z] in [0, 2^64).
    - A shift whose count is outside the width of the shifted type, or a
      left shift of an [int] whose result does not fit, has no value in
      ISO C; such expressions evaluate to [None].
    - The [malloc]ed grid [cache] is a list of sets, each a list of lines.
      Indexing outside the grid is undefined in C: a call of [accessData]
      that would index outside it evaluates to [None] ([in_grid]).  The
      helpers [line_at] and [modify_line] are total (an all-zero line, a
      write without effect); [updateLRU] taken alone is stated on a
      well-formed grid.
    - The trace file is the list of chunks that successive [fgets] calls
      deliver; the array [buf] keeps, past the terminator, what earlier
      chunks left in it.  The C library's [sscanf] is a parameter of the
      replay loop; [sscanf_model] stands for it on concrete lines. *)

From stdpp Require Import base option list numbers strings.
From Stdlib Require Import ZArith Lia Ascii.

Local Open Scope Z_scope.

(** ** Machine integers *)

Definition INT_MAX : Z := 2147483647.
Definition INT_MIN : Z := -2147483648.

(** Conversion of an integer to [int] (two's complement, 32 bits). *)
Definition wrap_int (z : Z) : Z := (z + 2 ^ 31) mod 2 ^ 32 - 2 ^ 31.

(** Conversion of an integer to [unsigned long long] (64 bits). *)
Definition to_u64 (z : Z) : Z := z mod 2 ^ 64.

(** [x++] on an [int]. *)
Definition int_incr (x : Z) : Z := wrap_int (x + 1).

(** [x >> n] for [x : mem_addr_t]: defined for [0 <= n < 64]. *)
Definition shr_u64 (x n : Z) : option Z :=
  if (0 <=? n) && (n <? 64) then Some (Z.shiftr x n) else None.

(** [x << n] for a non-negative [x : int]: defined when [0 <= n < 32] and
    the product [x * 2^n] is representable in [int]. *)
Definition shl_int (x n : Z) : option Z :=
  if (0 <=? n) && (n <? 32) && (0 <=? x) && (x * 2 ^ n <=? INT_MAX)
  then Some (Z.shiftl x n) else None.

(** ** Data model *)

(** [cache_line_t]: [char valid; mem_addr_t tag; int lru_counter]. *)
Record cache_line_t : Type := mkLine {
  valid : Z;
  tag : Z;
  lru_counter : Z
}.

Abbreviation cache_set_t := (list cache_line_t).
Abbreviation cache_t := (list (list cache_line_t)).

Definition set_valid (v : Z) (l : cache_line_t) : cache_line_t :=
  mkLine v (tag l) (lru_counter l).
Definition set_tag (t : Z) (l : cache_line_t) : cache_line_t :=
  mkLine (valid l) t (lru_counter l).
Definition set_lru_counter (k : Z) (l : cache_line_t) : cache_line_t :=
  mkLine (valid l) (tag l) k.

(** [line.lru_counter++]. *)
Definition lru_counter_incr (l : cache_line_t) : cache_line_t :=
  set_lru_counter (int_incr (lru_counter l)) l.

(** The line [initCache] writes everywhere. *)
Definition line0 : cache_line_t := mkLine 0 0 0.

(** A line is in use when its [valid] byte is non-zero ([if (line.valid)]). *)
Definition is_valid (l : cache_line_t) : bool := negb (valid l =? 0).

(** Indexing by a C [int]: a negative index is outside the array. *)
Definition zlookup {A : Type} (l : list A) (i : Z) : option A :=
  if i <? 0 then None else l !! Z.to_nat i.

Definition zalter {A : Type} (f : A → A) (i : Z) (l : list A) : list A :=
  if i <? 0 then l else alter f (Z.to_nat i) l.

(** [cache[setIndex][i]] read as a value.  The function is total: outside
    the grid it gives an all-zero line, a case [accessData] never reaches
    (see [in_grid]). *)
Definition line_at (c : cache_t) (setIndex i : Z) : cache_line_t :=
  default line0 (zlookup c setIndex ≫= λ set, zlookup set i).

(** An assignment to fields of [cache[setIndex][i]]; total as well, and
    without effect outside the grid. *)
Definition modify_line (f : cache_line_t → cache_line_t)
    (setIndex i : Z) (c : cache_t) : cache_t :=
  zalter (zalter f i) setIndex c.

(** The global counters together with the grid. *)
Record state : Type := mkState {
  cache : cache_t;
  hit_count : Z;
  miss_count : Z;
  eviction_count : Z
}.

(** What the verbose block at the end of [accessData] prints for the access. *)
Inductive verbose_line : Type :=
  | Vhit
  | Vmiss
  | Vmiss_eviction.

(** Local variables of [accessData] that live across its scan loop. *)
Record locals : Type := mkLocals {
  hit : Z;
  empty_index : Z;
  lru_index : Z;
  max_lru : Z
}.

Section Simulator.

(** The globals set from the command line: set-index bits, block-offset
    bits and associativity. *)
Variables s b E : Z.

(** Lines 123-124 of [accessData]:
    [tag = addr >> (s + b)] and
    [setIndex = (addr >> b) & ((1 << s) - 1)], the latter computed in
    [unsigned long long] and stored in an [int]. *)
Definition decode (addr : Z) : option (Z * Z) :=
  tg ← shr_u64 addr (wrap_int (s + b));
  hi ← shr_u64 addr b;
  one_s ← shl_int 1 s;
  Some (tg, wrap_int (Z.land hi (to_u64 (wrap_int (one_s - 1))))).

(** [initCache]: [S = pow(2, s)] sets of [E] lines, all fields zero.
    [Z.pow] gives 0 for a negative [s], as the conversion of [pow]'s
    result (a double below 1) to [int] does; for [s] above 30 the
    conversion is undefined in C, and the theorems keep [s] at most 30. *)
Definition num_sets : Z := 2 ^ s.

Definition initCache : cache_t :=
  replicate (Z.to_nat num_sets) (replicate (Z.to_nat E) line0).

(** The [for] loop of [updateLRU]; [n] iterations remain, [i] is the
    loop variable. *)
Fixpoint updateLRU_loop (n : nat) (i : Z) (setIndex lineIndex : Z)
    (c : cache_t) : cache_t :=
  match n with
  | O => c
  | S n' =>
      let c' :=
        if negb (i =? lineIndex) && is_valid (line_at c setIndex i)
        then modify_line lru_counter_incr setIndex i c
        else c in
      updateLRU_loop n' (i + 1) setIndex lineIndex c'
  end.

Definition updateLRU (setIndex lineIndex : Z) (c : cache_t) : cache_t :=
  modify_line (set_lru_counter 0) setIndex lineIndex
    (updateLRU_loop (Z.to_nat E) 0 setIndex lineIndex c).

(** The scan loop of [accessData] (lines 132-146).  A hit bumps
    [hit_count], runs [updateLRU] and leaves the loop. *)
Fixpoint accessData_loop (n : nat) (i : Z) (tg setIndex : Z)
    (st : state) (lv : locals) : state * locals :=
  match n with
  | O => (st, lv)
  | S n' =>
      let l := line_at (cache st) setIndex i in
      if is_valid l then
        if tag l =? tg then
          (mkState (updateLRU setIndex i (cache st))
                   (int_incr (hit_count st)) (miss_count st)
                   (eviction_count st),
           mkLocals 1 (empty_index lv) (lru_index lv) (max_lru lv))
        else if lru_counter l >? max_lru lv then
          accessData_loop n' (i + 1) tg setIndex st
            (mkLocals (hit lv) (empty_index lv) i (lru_counter l))
        else accessData_loop n' (i + 1) tg setIndex st lv
      else if empty_index lv =? -1 then
        accessData_loop n' (i + 1) tg setIndex st
          (mkLocals (hit lv) i (lru_index lv) (max_lru lv))
      else accessData_loop n' (i + 1) tg setIndex st lv
  end.

(** The lines a call of [accessData] indexes are inside the arrays of the
    grid.  Between its scan loop and [updateLRU] the call reads or writes
    [cache[setIndex][i]] for every [i] from 0 to [E - 1]; with [E] below
    1 the scan finds nothing and the eviction path writes
    [cache[setIndex][0]]. *)
Definition in_grid (setIndex : Z) (c : cache_t) : bool :=
  match zlookup c setIndex with
  | Some set => Z.max 1 E <=? Z.of_nat (length set)
  | None => false
  end.

(** [accessData]: the new state and the line verbose mode prints.  A call
    that indexes outside the grid has no defined behaviour. *)
Definition accessData (addr : Z) (st : state)
    : option (state * verbose_line) :=
  '(tg, setIndex) ← decode addr;
  if in_grid setIndex (cache st) then
    let '(st1, lv) :=
      accessData_loop (Z.to_nat E) 0 tg setIndex st
        (mkLocals 0 (-1) 0 (-1)) in
    if hit lv =? 0 then
      let misses := int_incr (miss_count st1) in
      if negb (empty_index lv =? -1) then
        let c1 := modify_line (set_valid 1) setIndex (empty_index lv)
                    (cache st1) in
        let c2 := modify_line (set_tag tg) setIndex (empty_index lv) c1 in
        Some (mkState (updateLRU setIndex (empty_index lv) c2)
                      (hit_count st1) misses (eviction_count st1),
              Vmiss)
      else
        let c1 := modify_line (set_tag tg) setIndex (lru_index lv)
                    (cache st1) in
        Some (mkState (updateLRU setIndex (lru_index lv) c1)
                      (hit_count st1) misses
                      (int_incr (eviction_count st1)),
              Vmiss_eviction)
    else Some (st1, Vhit)
  else None.

End Simulator.

(** The state [main] starts the replay from: the grid of [initCache] and
    the three counters at 0. *)
Definition init_state (s E : Z) : state := mkState (initCache s E) 0 0 0.

(** ** Trace text *)

Definition NUL : ascii := "000"%char.
Definition newline : ascii := "010"%char.

(** [fgets(buf, 1000, fp)] delivering [chunk] (at most 999 characters):
    the characters and a terminator are stored at the start of [buf], the
    rest of the array keeps what it held. *)
Definition fgets_store (chunk buf : list ascii) : list ascii :=
  chunk ++ NUL :: drop (S (length chunk)) buf.

(** The C string that starts at the head of a character sequence. *)
Fixpoint cstring (m : list ascii) : list ascii :=
  match m with
  | [] => []
  | c :: r => if Ascii.eqb c NUL then [] else c :: cstring r
  end.

(** [buf[k]]. *)
Definition char_at (buf : list ascii) (k : nat) : ascii :=
  default NUL (buf !! k).

(** What [sscanf(str, "%llx,%u", &addr, &len)] stores: nothing, the
    address only, or the address and the length. *)
Inductive scanned : Type :=
  | NoItem
  | AddrOnly (a : Z)
  | AddrLen (a n : Z).

(** The value [addr] holds after the call, [old] being its value before. *)
Definition scanned_addr (old : Z) (r : scanned) : Z :=
  match r with
  | NoItem => old
  | AddrOnly a => a
  | AddrLen a _ => a
  end.

(** Modelled from the spec: [printSummary] is declared in cachelab.h,
    which is not among the sources; the specification has the reporting
    collaborator receive the three counters, and its call is recorded as
    [Summary hits misses evictions].  The other two outputs are the
    missing-argument message of [main] and the text of [printUsage]. *)
Inductive output : Type :=
  | MissingArgument
  | UsageText
  | Summary (hits misses evictions : Z).

(** How [main] ends: the exit status with what was printed, or a run whose
    behaviour C leaves undefined. *)
Inductive process : Type :=
  | Exit (status : Z) (out : list output)
  | Undefined.

(** [printUsage] prints the usage text and calls [exit(0)]. *)
Definition printUsage (out : list output) : process :=
  Exit 0 (out ++ [UsageText]).

Section Replay.

Variables s b E : Z.

(** The C library's [sscanf] with format ["%llx,%u"]. *)
Variable sscanf_llx_u : list ascii → scanned.

Definition is_LSM (c : ascii) : bool :=
  Ascii.eqb c "S" || Ascii.eqb c "L" || Ascii.eqb c "M".

(** The [while] loop of [replayTrace].  [file] lists the chunks that the
    successive [fgets] calls deliver until end of file; [buf] and [addr]
    are the local variables. *)
Fixpoint replayTrace_loop (file : list (list ascii)) (buf : list ascii)
    (addr : Z) (st : state) : option state :=
  match file with
  | [] => Some st
  | chunk :: rest =>
      let buf' := fgets_store chunk buf in
      if is_LSM (char_at buf' 1) then
        let addr' :=
          scanned_addr addr (sscanf_llx_u (cstring (drop 3 buf'))) in
        r1 ← accessData s b E addr' st;
        st2 ← (if Ascii.eqb (char_at buf' 1) "M"
               then fst <$> accessData s b E addr' r1.1
               else Some r1.1);
        replayTrace_loop rest buf' addr' st2
      else replayTrace_loop rest buf' addr st
  end.

(** [replayTrace] on a trace file that opens: [file] is its content as
    [fgets] delivers it, [buf0] is what the uninitialised array [buf]
    holds at entry, [addr] starts at 0. *)
Definition replayTrace (file : list (list ascii)) (buf0 : list ascii)
    (st : state) : option state :=
  replayTrace_loop file buf0 0 st.

(** [main] after its option loop, with [verbosity] 0: [s], [E], [b] and
    [trace_file] hold what [getopt] left in them ([None] for a null
    [trace_file]); the trace file, when named, is given by its chunks.
    The call [exit(1)] that follows [printUsage] is never reached. *)
Definition main (trace_file : option (list (list ascii)))
    (buf0 : list ascii) : process :=
  if (s =? 0) || (E =? 0) || (b =? 0)
     || bool_decide (trace_file = None)
  then printUsage [MissingArgument]
  else
    match trace_file with
    | Some file =>
        match replayTrace file buf0 (init_state s E) with
        | Some st =>
            Exit 0 [Summary (hit_count st) (miss_count st)
                            (eviction_count st)]
        | None => Undefined
        end
    | None => Undefined
    end.

End Replay.

(** A model of the library's [sscanf] with format ["%llx,%u"] on the
    numerals trace files contain: optional white space, an unsigned
    hexadecimal numeral, a comma, optional white space, an unsigned
    decimal numeral.  Values beyond the target type are clamped to its
    maximum.  The sign and the [0x] prefix the library also accepts are
    not read by this model; the general theorems below hold for any
    [sscanf], and the model is used on concrete lines only. *)
Definition is_space (c : ascii) : bool :=
  Ascii.eqb c " " || Ascii.eqb c "009" || Ascii.eqb c "010"
  || Ascii.eqb c "011" || Ascii.eqb c "012" || Ascii.eqb c "013".

Fixpoint skip_space (m : list ascii) : list ascii :=
  match m with
  | c :: r => if is_space c then skip_space r else m
  | [] => []
  end.

Definition digit_value (base : Z) (c : ascii) : option Z :=
  let n := Z.of_nat (nat_of_ascii c) in
  let v :=
    if (48 <=? n) && (n <=? 57) then n - 48
    else if (97 <=? n) && (n <=? 102) then n - 87
    else if (65 <=? n) && (n <=? 70) then n - 55
    else 16 in
  if v <? base then Some v else None.

Fixpoint read_digits (base acc : Z) (m : list ascii) : Z * list ascii :=
  match m with
  | c :: r =>
      match digit_value base c with
      | Some v => read_digits base (acc * base + v) r
      | None => (acc, m)
      end
  | [] => (acc, [])
  end.

Definition starts_with_digit (base : Z) (m : list ascii) : bool :=
  match m with
  | c :: _ => bool_decide (is_Some (digit_value base c))
  | [] => false
  end.

Definition sscanf_model (str : list ascii) : scanned :=
  let m1 := skip_space str in
  if starts_with_digit 16 m1 then
    let '(a, m2) := read_digits 16 0 m1 in
    let a := Z.min a (2 ^ 64 - 1) in
    match m2 with
    | c :: m3 =>
        if Ascii.eqb c "," then
          let m4 := skip_space m3 in
          if starts_with_digit 10 m4
          then AddrLen a (Z.min (read_digits 10 0 m4).1 (2 ^ 32 - 1))
          else AddrOnly a
        else AddrOnly a
    | [] => AddrOnly a
    end
  else NoItem.

(** A trace line as [fgets] delivers it: the text followed by a newline. *)
Definition text_line (txt : string) : list ascii :=
  String.list_ascii_of_string txt ++ [newline].

(** ** Set-level view of the code

    Pure descriptions of what the loops do to the one set they work on;
    the lemmas below connect them to the index-driven loops above. *)

(** Lines with index in [[lo, hi)], other than [li] and in use, get their
    counter incremented. *)
Definition incr_others (lo hi li : Z) (set : cache_set_t) : cache_set_t :=
  imap (λ j l,
          if (lo <=? Z.of_nat j) && (Z.of_nat j <? hi)
             && negb (Z.of_nat j =? li) && is_valid l
          then lru_counter_incr l else l) set.

(** The effect of [updateLRU] on the set it is called for. *)
Definition touch (E li : Z) (set : cache_set_t) : cache_set_t :=
  zalter (set_lru_counter 0) li (incr_others 0 E li set).

(** Geometry under which the program stays inside defined C: the shifts
    are in range, [1 << s] and the number of sets fit in [int], and every
    set has at least one line. *)
Definition valid_config (s b E : Z) : Prop :=
  0 ≤ s ≤ 30 ∧ 0 ≤ b ∧ s + b ≤ 63 ∧ 1 ≤ E ≤ INT_MAX.

(** The grid has the shape [initCache] allocates. *)
Definition wf_cache (s E : Z) (c : cache_t) : Prop :=
  length c = Z.to_nat (2 ^ s) ∧
  Forall (λ set : cache_set_t, length set = Z.to_nat E) c.

(** No two lines in use of a set hold the same tag. *)
Definition distinct_tags (set : cache_set_t) : Prop :=
  ∀ i j li lj,
    set !! i = Some li → set !! j = Some lj →
    is_valid li = true → is_valid lj = true → tag li = tag lj → i = j.

(** What [touch] leaves at each index of a set of [E] lines. *)
Definition touch_line (li j : Z) (l : cache_line_t) : cache_line_t :=
  if j =? li then set_lru_counter 0 l
  else if is_valid l then lru_counter_incr l else l.

(** [set[i]] read as a value. *)
Definition set_line (set : cache_set_t) (i : Z) : cache_line_t :=
  default line0 (zlookup set i).

(** Line [j] of the set is in use and holds the tag [tg]. *)
Definition holds (tg : Z) (set : cache_set_t) (j : Z) : Prop :=
  is_valid (set_line set j) = true ∧ tag (set_line set j) = tg.

(** The state the scan loop leaves on a hit at line [h]. *)
Definition hit_state (E si h : Z) (st : state) : state :=
  mkState (updateLRU E si h (cache st)) (int_incr (hit_count st))
          (miss_count st) (eviction_count st).

(** [empty_index] after scanning lines [[i, hi)] without a hit: the first
    line not in use, if the variable was still -1. *)
Definition empty_scanned (set : cache_set_t) (i hi : Z) (lv lv' : locals)
    : Prop :=
  (empty_index lv ≠ -1 → empty_index lv' = empty_index lv) ∧
  (empty_index lv = -1 →
   (empty_index lv' = -1 ∧
    ∀ j, i ≤ j < hi → is_valid (set_line set j) = true)
   ∨ (i ≤ empty_index lv' < hi ∧
      is_valid (set_line set (empty_index lv')) = false ∧
      ∀ j, i ≤ j < empty_index lv' → is_valid (set_line set j) = true)).

(** [max_lru] and [lru_index] after scanning lines [[i, hi)] without a
    hit: the greatest counter seen among lines in use, and the first line
    that holds it when it exceeds the starting threshold. *)
Definition lru_scanned (set : cache_set_t) (i hi : Z) (lv lv' : locals)
    : Prop :=
  max_lru lv ≤ max_lru lv' ∧
  (∀ j, i ≤ j < hi → is_valid (set_line set j) = true →
        lru_counter (set_line set j) ≤ max_lru lv') ∧
  ((max_lru lv' = max_lru lv ∧ lru_index lv' = lru_index lv)
   ∨ (max_lru lv < max_lru lv' ∧ i ≤ lru_index lv' < hi ∧
      is_valid (set_line set (lru_index lv')) = true ∧
      lru_counter (set_line set (lru_index lv')) = max_lru lv' ∧
      ∀ j, i ≤ j < lru_index lv' → is_valid (set_line set j) = true →
           lru_counter (set_line set j) < max_lru lv')).

(** The locals of [accessData] when the scan starts. *)
Definition locals0 : locals := mkLocals 0 (-1) 0 (-1).

(** What one access does to the set it maps to, with the line verbose
    mode prints: a hit at the first line in use that holds the tag, a
    placement into the first line not in use, or the replacement of the
    line [lru_index] ends at when every line is in use. *)
Inductive access_step (E tg : Z) (set : cache_set_t)
    : cache_set_t → verbose_line → Prop :=
  | step_hit h :
      0 ≤ h < E → holds tg set h →
      (∀ j, 0 ≤ j < h → ¬ holds tg set j) →
      access_step E tg set (touch E h set) Vhit
  | step_place e :
      (∀ j, 0 ≤ j < E → ¬ holds tg set j) →
      0 ≤ e < E → is_valid (set_line set e) = false →
      (∀ j, 0 ≤ j < e → is_valid (set_line set j) = true) →
      access_step E tg set
        (touch E e (zalter (set_tag tg) e (zalter (set_valid 1) e set)))
        Vmiss
  | step_evict lv :
      (∀ j, 0 ≤ j < E → ¬ holds tg set j) →
      (∀ j, 0 ≤ j < E → is_valid (set_line set j) = true) →
      lru_scanned set 0 E locals0 lv →
      0 ≤ lru_index lv < E →
      access_step E tg set
        (touch E (lru_index lv) (zalter (set_tag tg) (lru_index lv) set))
        Vmiss_eviction.

(** The counters after an access with the given outcome, around the new
    grid [c']. *)
Definition counted (o : verbose_line) (c' : cache_t) (st : state) : state :=
  match o with
  | Vhit =>
      mkState c' (int_incr (hit_count st)) (miss_count st)
              (eviction_count st)
  | Vmiss =>
      mkState c' (hit_count st) (int_incr (miss_count st))
              (eviction_count st)
  | Vmiss_eviction =>
      mkState c' (hit_count st) (int_incr (miss_count st))
              (int_incr (eviction_count st))
  end.

(** A sequence of calls of [accessData], one per address. *)
Fixpoint accessData_seq (s b E : Z) (addrs : list Z) (st : state)
    : option state :=
  match addrs with
  | [] => Some st
  | a :: rest => r ← accessData s b E a st; accessData_seq s b E rest r.1
  end.

(** The number of [accessData] calls the replay loop makes for a line
    whose character at offset 1 is [op]. *)
Definition record_accesses (op : ascii) : Z :=
  if Ascii.eqb op "M" then 2 else if is_LSM op then 1 else 0.

Fixpoint trace_accesses (file : list (list ascii)) : Z :=
  match file with
  | [] => 0
  | chunk :: rest => record_accesses (char_at chunk 1) + trace_accesses rest
  end.

(** The record kinds of the specification (sections 4.4 and 7): the
    operation character selects the kind; a line with another character,
    or a Load/Store/Modify line whose address and length do not both
    parse, is malformed. *)
Inductive record_kind : Type :=
  | Instruction
  | Load
  | Store
  | Modify
  | Malformed.

Definition spec_record_kind (scan : list ascii → scanned)
    (chunk : list ascii) : record_kind :=
  let op := char_at chunk 1 in
  let parsed :=
    match scan (cstring (drop 3 chunk)) with
    | AddrLen _ _ => true
    | _ => false
    end in
  if Ascii.eqb op "I" then Instruction
  else if Ascii.eqb op "L" then (if parsed then Load else Malformed)
  else if Ascii.eqb op "S" then (if parsed then Store else Malformed)
  else if Ascii.eqb op "M" then (if parsed then Modify else Malformed)
  else Malformed.

(** The total the specification's accounting identity promises: one per
    Load or Store record, two per Modify record, nothing for the rest. *)
Definition spec_accesses (scan : list ascii → scanned)
    (file : list (list ascii)) : Z :=
  foldr (λ chunk n,
           match spec_record_kind scan chunk with
           | Load | Store => 1 + n
           | Modify => 2 + n
           | Instruction | Malformed => n
           end) 0 file.

(** An array [buf] whose 1000 characters are all zero. *)
Definition zero_buf : list ascii := replicate 1000 NUL.

(** A property of the lines [[i, hi)] follows from the property of line
    [i] and of the lines [[i + 1, hi)]. *)
Ltac range_head i H :=
  let j := fresh "j" in
  let Hj := fresh "Hj" in
  intros j Hj; destruct (decide (j = i)) as [-> | ?];
  [ | apply H; lia ].

(** What [accessData] writes to the line it chose, before it calls
    [updateLRU]: nothing on a hit, [valid = 1] and the tag on a placement,
    the tag on an eviction. *)
Definition install (o : verbose_line) (tg : Z) (l : cache_line_t)
    : cache_line_t :=
  match o with
  | Vhit => l
  | Vmiss => set_tag tg (set_valid 1 l)
  | Vmiss_eviction => set_tag tg l
  end.

(** The line [accessData] chooses in a set, by outcome: the first line in
    use that holds the tag; the first line not in use when no line holds
    the tag; the line the scan leaves in [lru_index] when no line holds
    the tag and all are in use. *)
Definition chosen (E tg : Z) (set : cache_set_t) (o : verbose_line) (t : Z)
    : Prop :=
  match o with
  | Vhit => holds tg set t ∧ ∀ j, 0 ≤ j < t → ¬ holds tg set j
  | Vmiss =>
      (∀ j, 0 ≤ j < E → ¬ holds tg set j) ∧
      is_valid (set_line set t) = false ∧
      ∀ j, 0 ≤ j < t → is_valid (set_line set j) = true
  | Vmiss_eviction =>
      (∀ j, 0 ≤ j < E → ¬ holds tg set j) ∧
      (∀ j, 0 ≤ j < E → is_valid (set_line set j) = true) ∧
      ∃ lv, lru_scanned set 0 E locals0 lv ∧ t = lru_index lv
  end.

(** Recency bookkeeping of a set after fewer than [n] accesses without
    overflow: counters of lines in use lie in [[0, n)], a line not in use
    is as [initCache] left it, and no two lines in use share a counter. *)
Definition recency_ok (n : Z) (set : cache_set_t) : Prop :=
  (∀ i, 0 ≤ i < Z.of_nat (length set) →
        is_valid (set_line set i) = true →
        0 ≤ lru_counter (set_line set i) < n) ∧
  (∀ i, 0 ≤ i < Z.of_nat (length set) →
        is_valid (set_line set i) = false → set_line set i = line0) ∧
  (∀ i j, 0 ≤ i < Z.of_nat (length set) → 0 ≤ j < Z.of_nat (length set) →
          is_valid (set_line set i) = true →
          is_valid (set_line set j) = true →
          lru_counter (set_line set i) = lru_counter (set_line set j) →
          i = j).

(** The number of lines in use of a set, and of the whole grid. *)
Fixpoint set_in_use (set : cache_set_t) : Z :=
  match set with
  | [] => 0
  | l :: rest => (if is_valid l then 1 else 0) + set_in_use rest
  end.

Fixpoint lines_in_use (c : cache_t) : Z :=
  match c with
  | [] => 0
  | set :: rest => set_in_use set + lines_in_use rest
  end.

(** The addresses the loop of [replayTrace] passes to [accessData], in
    the order of the calls. *)
Fixpoint trace_addresses (scan : list ascii → scanned)
    (file : list (list ascii)) (buf : list ascii) (addr : Z) : list Z :=
  match file with
  | [] => []
  | chunk :: rest =>
      let buf' := fgets_store chunk buf in
      if is_LSM (char_at buf' 1) then
        let addr' := scanned_addr addr (scan (cstring (drop 3 buf'))) in
        (if Ascii.eqb (char_at buf' 1) "M" then [addr'; addr'] else [addr'])
        ++ trace_addresses scan rest buf' addr'
      else trace_addresses scan rest buf' addr
  end.

(** The verbose block of [accessData] (lines 164-175): with [verbosity]
    set it prints one line, the address and the outcome. *)
Definition verbose_block (verbosity addr : Z) (o : verbose_line)
    : list (Z * verbose_line) :=
  if verbosity =? 0 then [] else [(addr, o)].

(** [accessData] with what it prints. *)
Definition accessData_verbose (verbosity s b E addr : Z) (st : state)
    : option (state * list (Z * verbose_line)) :=
  r ← accessData s b E addr st;
  Some (r.1, verbose_block verbosity addr r.2).

(** The loop of [replayTrace] with what its calls of [accessData] print. *)
Fixpoint replayTrace_verbose (verbosity s b E : Z)
    (scan : list ascii → scanned) (file : list (list ascii))
    (buf : list ascii) (addr : Z) (st : state)
    : option (state * list (Z * verbose_line)) :=
  match file with
  | [] => Some (st, [])
  | chunk :: rest =>
      let buf' := fgets_store chunk buf in
      if is_LSM (char_at buf' 1) then
        let addr' := scanned_addr addr (scan (cstring (drop 3 buf'))) in
        r1 ← accessData_verbose verbosity s b E addr' st;
        r2 ← (if Ascii.eqb (char_at buf' 1) "M"
              then accessData_verbose verbosity s b E addr' r1.1
              else Some (r1.1, []));
        r3 ← replayTrace_verbose verbosity s b E scan rest buf' addr' r2.1;
        Some (r3.1, r1.2 ++ r2.2 ++ r3.2)
      else replayTrace_verbose verbosity s b E scan rest buf' addr st
  end.

(** The number of printed lines whose outcome satisfies [f]. *)
Definition printed (f : verbose_line → bool) (log : list (Z * verbose_line))
    : Z :=
  Z.of_nat (length (filter (λ p, f p.2 = true) log)).

Definition is_hit (o : verbose_line) : bool :=
  match o with Vhit => true | _ => false end.
Definition is_miss (o : verbose_line) : bool :=
  match o with Vhit => false | _ => true end.
Definition is_eviction (o : verbose_line) : bool :=
  match o with Vmiss_eviction => true | _ => false end.

(** The globals [main] sets from the command line. *)
Record globals : Type := mkGlobals {
  g_verbosity : Z;
  g_s : Z;
  g_b : Z;
  g_E : Z;
  g_trace_file : option (list ascii)
}.

(** Their initial values. *)
Definition globals0 : globals := mkGlobals 0 0 0 0 None.

(** What the whole program prints: the outputs of [main] and the lines of
    verbose mode. *)
Inductive cli_output : Type :=
  | Out (o : output)
  | AccessLine (addr : Z) (o : verbose_line).

Inductive cli_process : Type :=
  | CliExit (status : Z) (out : list cli_output)
  | CliUndefined.

(** An outcome of [main] or [printUsage] as an outcome of the whole
    program. *)
Definition cli_of_process (p : process) : cli_process :=
  match p with
  | Exit status out => CliExit status (map Out out)
  | Undefined => CliUndefined
  end.

Section CommandLine.

(** The C library's [atoi], and the opening of a named file: its chunks,
    or nothing when [fopen] returns a null pointer. *)
Variable atoi : list ascii → Z.
Variable fopen : list ascii → option (list (list ascii)).
Variable sscanf_llx_u : list ascii → scanned.

(** The option loop of [main] (lines 225-249).  [opts] lists what the
    successive calls of [getopt] return before -1, each with the
    [optarg] it sets; [char] is taken signed, so that -1 ends the loop.
    The case [h] and the default case both call [printUsage], which
    exits with status 0 before the [exit] that follows it is reached. *)
Fixpoint option_loop (opts : list (ascii * list ascii)) (g : globals)
    : cli_process + globals :=
  match opts with
  | [] => inr g
  | (c, optarg) :: rest =>
      if Ascii.eqb c "s" then
        option_loop rest
          (mkGlobals (g_verbosity g) (atoi optarg) (g_b g) (g_E g)
                     (g_trace_file g))
      else if Ascii.eqb c "E" then
        option_loop rest
          (mkGlobals (g_verbosity g) (g_s g) (g_b g) (atoi optarg)
                     (g_trace_file g))
      else if Ascii.eqb c "b" then
        option_loop rest
          (mkGlobals (g_verbosity g) (g_s g) (atoi optarg) (g_E g)
                     (g_trace_file g))
      else if Ascii.eqb c "t" then
        option_loop rest
          (mkGlobals (g_verbosity g) (g_s g) (g_b g) (g_E g) (Some optarg))
      else if Ascii.eqb c "v" then
        option_loop rest
          (mkGlobals 1 (g_s g) (g_b g) (g_E g) (g_trace_file g))
      else if Ascii.eqb c "h" then inl (cli_of_process (printUsage []))
      else inl (cli_of_process (printUsage []))
  end.

(** [main] with its option loop and verbose mode.  A trace file that does
    not open leaves [fgets] with a null stream, which C leaves
    undefined. *)
Definition main_cli (opts : list (ascii * list ascii)) (buf0 : list ascii)
    : cli_process :=
  match option_loop opts globals0 with
  | inl p => p
  | inr g =>
      if (g_s g =? 0) || (g_E g =? 0) || (g_b g =? 0)
         || bool_decide (g_trace_file g = None)
      then cli_of_process (printUsage [MissingArgument])
      else
        match g_trace_file g ≫= fopen with
        | Some file =>
            match replayTrace_verbose (g_verbosity g) (g_s g) (g_b g)
                    (g_E g) sscanf_llx_u file buf0 0
                    (init_state (g_s g) (g_E g)) with
            | Some (st, log) =>
                CliExit 0
                  (map (λ p, AccessLine p.1 p.2) log
                   ++ [Out (Summary (hit_count st) (miss_count st)
                                    (eviction_count st))])
            | None => CliUndefined
            end
        | None => CliUndefined
        end
  end.

End CommandLine.

(** The option characters that set a global: [s], [E], [b], [t], [v]. *)
Definition is_setting (c : ascii) : bool :=
  Ascii.eqb c "s" || Ascii.eqb c "E" || Ascii.eqb c "b"
  || Ascii.eqb c "t" || Ascii.eqb c "v".

(** A model of the library's [atoi] on unsigned decimal numerals, and a
    file system in which every name opens the same two-line trace; both
    serve on concrete command lines only. *)
Definition atoi_model (str : list ascii) : Z :=
  (read_digits 10 0 (skip_space str)).1.

Definition fopen_model (name : list ascii) : option (list (list ascii)) :=
  Some [text_line " L 10,1"; text_line " M 20,4"].

(** One option as [getopt] returns it, with its argument. *)
Definition opt (c : ascii) (optarg : string) : ascii * list ascii :=
  (c, String.list_ascii_of_string optarg).

(** The distinct tags of the addresses of a list that decode to set
    [si], and what it means for the blocks of the list to fit the cache:
    no set receives more than [E] distinct tags. *)
Definition tags_of_set (s b si : Z) (addrs : list Z) : list Z :=
  remove_dups
    (omap (λ a, decode s b a ≫= λ d, if d.2 =? si then Some d.1 else None)
          addrs).

Definition working_set_fits (s b E : Z) (addrs : list Z) : Prop :=
  ∀ si, Z.of_nat (length (tags_of_set s b si addrs)) ≤ E.

(** Every line in use of the grid holds a tag of an address of the list
    that decodes to the line's set. *)
Definition resident_seen (s b : Z) (addrs : list Z) (c : cache_t) : Prop :=
  ∀ k set j l,
    c !! k = Some set → set !! j = Some l → is_valid l = true →
    tag l ∈ tags_of_set s b (Z.of_nat k) addrs.

(** ** Machine integers: basic facts *)

Lemma wrap_int_small z : INT_MIN ≤ z ≤ INT_MAX → wrap_int z = z.
Proof.
  unfold INT_MIN, INT_MAX, wrap_int. intros Hz.
  rewrite Z.mod_small; lia.
Qed.

Lemma int_incr_small x : INT_MIN ≤ x < INT_MAX → int_incr x = x + 1.
Proof. intros Hx. apply wrap_int_small. lia. Qed.

(** ** Indexing *)

Lemma zlookup_nonneg {A} (l : list A) i :
  0 ≤ i → zlookup l i = l !! Z.to_nat i.
Proof. intros Hi. unfold zlookup. destruct (Z.ltb_spec i 0); [lia | done]. Qed.

Lemma zalter_nonneg {A} (f : A → A) i (l : list A) :
  0 ≤ i → zalter f i l = alter f (Z.to_nat i) l.
Proof. intros Hi. unfold zalter. destruct (Z.ltb_spec i 0); [lia | done]. Qed.

Lemma length_zalter {A} (f : A → A) i (l : list A) :
  length (zalter f i l) = length l.
Proof. unfold zalter. destruct (i <? 0); [done | apply length_alter]. Qed.

Lemma alter_insert_Some {A} (f : A → A) k (l : list A) x :
  l !! k = Some x → alter f k l = <[k := f x]> l.
Proof.
  intros Hk. apply list_eq. intros j.
  destruct (decide (k = j)) as [<- | Hne].
  - rewrite list_lookup_alter_eq, Hk.
    rewrite list_lookup_insert_eq by (eapply lookup_lt_Some; eauto). done.
  - rewrite list_lookup_alter_ne, list_lookup_insert_ne by done. done.
Qed.

Section SetView.

Variables (si : Z) (c : cache_t) (set : cache_set_t).
Hypothesis Hsi : 0 ≤ si.
Hypothesis Hset : c !! Z.to_nat si = Some set.

Lemma line_at_set i : line_at c si i = set_line set i.
Proof using Hsi Hset.
  unfold line_at, set_line. rewrite zlookup_nonneg by done. rewrite Hset. done.
Qed.

Lemma modify_line_insert f i :
  modify_line f si i c = <[Z.to_nat si := zalter f i set]> c.
Proof using Hsi Hset.
  unfold modify_line. rewrite zalter_nonneg by done.
  by apply alter_insert_Some.
Qed.

End SetView.

(** ** [updateLRU] on the set it is called for *)

Lemma incr_others_lookup lo hi li set j :
  incr_others lo hi li set !! j =
  (λ l, if (lo <=? Z.of_nat j) && (Z.of_nat j <? hi)
           && negb (Z.of_nat j =? li) && is_valid l
        then lru_counter_incr l else l) <$> set !! j.
Proof. unfold incr_others. by rewrite list_lookup_imap. Qed.

Lemma length_incr_others lo hi li set :
  length (incr_others lo hi li set) = length set.
Proof. unfold incr_others. apply length_imap. Qed.

Lemma incr_others_empty lo li set : incr_others lo lo li set = set.
Proof.
  apply list_eq. intros j. rewrite incr_others_lookup.
  destruct (set !! j) as [l|]; [|done]. simpl.
  destruct (Z.leb_spec lo (Z.of_nat j)), (Z.ltb_spec (Z.of_nat j) lo);
    simpl; try done; lia.
Qed.

(** One iteration of the loop of [updateLRU], seen on the set. *)
Lemma incr_others_step i hi li set :
  0 ≤ i < hi →
  incr_others (i + 1) hi li
    (if negb (i =? li) && is_valid (set_line set i)
     then zalter lru_counter_incr i set else set)
  = incr_others i hi li set.
Proof.
  intros Hi. apply list_eq. intros j.
  rewrite !incr_others_lookup.
  assert (Hin : (if negb (i =? li) && is_valid (set_line set i)
                 then zalter lru_counter_incr i set else set) !! j
                = (λ l, if (Z.of_nat j =? i) && negb (i =? li) && is_valid l
                        then lru_counter_incr l else l) <$> set !! j).
  { unfold set_line. rewrite zlookup_nonneg, zalter_nonneg by lia.
    destruct (Z.eqb_spec (Z.of_nat j) i) as [Hj | Hj].
    - replace (Z.to_nat i) with j by lia.
      destruct (negb (i =? li)); simpl.
      + destruct (set !! j) as [l|] eqn:Hl; simpl.
        * destruct (is_valid l); [|by rewrite Hl].
          by rewrite list_lookup_alter_eq, Hl.
        * change (is_valid line0) with false. by rewrite Hl.
      + by destruct (set !! j).
    - simpl.
      destruct (negb (i =? li) && is_valid (default line0 (set !! Z.to_nat i))).
      + rewrite list_lookup_alter_ne by lia. by destruct (set !! j).
      + by destruct (set !! j). }
  rewrite Hin. destruct (set !! j) as [l|]; [|done]. simpl. f_equal.
  destruct (Z.eqb_spec (Z.of_nat j) i) as [Hj | Hj]; simpl.
  - subst i.
    destruct (Z.leb_spec (Z.of_nat j + 1) (Z.of_nat j)); [lia|]. simpl.
    destruct (Z.leb_spec (Z.of_nat j) (Z.of_nat j)); [|lia].
    destruct (Z.ltb_spec (Z.of_nat j) hi); [|lia]. simpl.
    destruct (negb (Z.of_nat j =? li)), (is_valid l); done.
  - destruct (Z.leb_spec (i + 1) (Z.of_nat j)), (Z.leb_spec i (Z.of_nat j));
      try lia; done.
Qed.

Lemma updateLRU_loop_insert si li n :
  ∀ i c set,
    0 ≤ si → 0 ≤ i → c !! Z.to_nat si = Some set →
    updateLRU_loop n i si li c
    = <[Z.to_nat si := incr_others i (i + Z.of_nat n) li set]> c.
Proof.
  induction n as [|n IH]; intros i c set Hsi Hi Hset.
  - simpl. rewrite Z.add_0_r, incr_others_empty. by rewrite list_insert_id.
  - cbn [updateLRU_loop].
    rewrite (line_at_set si c set) by done.
    set (set1 := if negb (i =? li) && is_valid (set_line set i)
                 then zalter lru_counter_incr i set else set).
    assert (Hc1 : (if negb (i =? li) && is_valid (set_line set i)
                   then modify_line lru_counter_incr si i c else c)
                  = <[Z.to_nat si := set1]> c).
    { subst set1.
      destruct (negb (i =? li) && is_valid (set_line set i)).
      - by apply modify_line_insert.
      - by rewrite list_insert_id. }
    rewrite Hc1.
    rewrite (IH (i + 1) _ set1); [|done|lia|].
    + rewrite list_insert_insert_eq. f_equal.
      replace (i + 1 + Z.of_nat n) with (i + Z.of_nat (S n)) by lia.
      subst set1. apply incr_others_step. lia.
    + apply list_lookup_insert_eq. eapply lookup_lt_Some; eauto.
Qed.

Lemma updateLRU_insert E si li c set :
  0 ≤ si → 0 ≤ E → c !! Z.to_nat si = Some set →
  updateLRU E si li c = <[Z.to_nat si := touch E li set]> c.
Proof.
  intros Hsi HE Hset. unfold updateLRU.
  rewrite (updateLRU_loop_insert si li _ 0 c set) by done.
  rewrite (modify_line_insert si _ (incr_others 0 (0 + Z.of_nat (Z.to_nat E)) li set)).
  - rewrite list_insert_insert_eq. unfold touch.
    by replace (0 + Z.of_nat (Z.to_nat E)) with E by lia.
  - done.
  - apply list_lookup_insert_eq. eapply lookup_lt_Some; eauto.
Qed.

Lemma touch_lookup E li set j :
  length set = Z.to_nat E →
  touch E li set !! j = touch_line li (Z.of_nat j) <$> set !! j.
Proof.
  intros Hlen. unfold touch, zalter, touch_line.
  destruct (Z.ltb_spec li 0) as [Hneg | Hnn].
  - rewrite incr_others_lookup. destruct (set !! j) as [l|] eqn:Hl; [|done].
    simpl. f_equal. apply lookup_lt_Some in Hl.
    destruct (Z.eqb_spec (Z.of_nat j) li); [lia|]. simpl.
    destruct (Z.leb_spec 0 (Z.of_nat j)); [|lia].
    destruct (Z.ltb_spec (Z.of_nat j) E); [|lia]. done.
  - destruct (decide (Z.to_nat li = j)) as [<- | Hne].
    + rewrite list_lookup_alter_eq, incr_others_lookup.
      destruct (set !! Z.to_nat li) as [l|]; [|done]. simpl. f_equal.
      rewrite Z2Nat.id by done. rewrite Z.eqb_refl.
      rewrite andb_false_r. done.
    + rewrite list_lookup_alter_ne by done. rewrite incr_others_lookup.
      destruct (set !! j) as [l|] eqn:Hl; [|done].
      simpl. f_equal. apply lookup_lt_Some in Hl.
      destruct (Z.eqb_spec (Z.of_nat j) li); [lia|]. simpl.
      destruct (Z.leb_spec 0 (Z.of_nat j)); [|lia].
      destruct (Z.ltb_spec (Z.of_nat j) E); [|lia]. done.
Qed.

Lemma length_touch E li set : length (touch E li set) = length set.
Proof. unfold touch. by rewrite length_zalter, length_incr_others. Qed.

(** ** The scan loop of [accessData] *)

Section ScanFacts.

Variable set : cache_set_t.

Lemma empty_scanned_nil i lv : empty_scanned set i i lv lv.
Proof. split; [done |]. intros He. left. split; [done | intros; lia]. Qed.

Lemma empty_scanned_in_use i hi lv lv1 lv' :
  is_valid (set_line set i) = true →
  empty_index lv1 = empty_index lv →
  empty_scanned set (i + 1) hi lv1 lv' →
  empty_scanned set i hi lv lv'.
Proof.
  intros Hv Heq [Hkeep Hfresh]. rewrite Heq in Hkeep, Hfresh.
  split; [done |]. intros He.
  destruct (Hfresh He) as [[He' Hall] | (Hr & Hinv & Hall)].
  - left. split; [done |]. range_head i Hall. done.
  - right. split_and!; [lia | lia | done |]. range_head i Hall. done.
Qed.

Lemma empty_scanned_found i hi lv lv1 lv' :
  0 ≤ i < hi →
  is_valid (set_line set i) = false →
  empty_index lv1 = i →
  empty_scanned set (i + 1) hi lv1 lv' →
  empty_scanned set i hi lv lv' ∨ empty_index lv ≠ -1.
Proof.
  intros Hi Hv Heq [Hkeep _].
  destruct (decide (empty_index lv = -1)) as [He | He]; [left | by right].
  split; [done |]. intros _. right.
  rewrite Hkeep by lia. rewrite Heq.
  split_and!; [lia | lia | done | intros; lia].
Qed.

Lemma empty_scanned_kept i hi lv lv' :
  empty_index lv ≠ -1 →
  empty_scanned set (i + 1) hi lv lv' →
  empty_scanned set i hi lv lv'.
Proof. intros He [Hkeep _]. split; [done | intros; done]. Qed.

Lemma lru_scanned_nil i lv : lru_scanned set i i lv lv.
Proof. split_and!; [lia | intros; lia | by left]. Qed.

Lemma lru_scanned_new i hi lv lv1 lv' :
  i < hi →
  is_valid (set_line set i) = true →
  max_lru lv < lru_counter (set_line set i) →
  max_lru lv1 = lru_counter (set_line set i) →
  lru_index lv1 = i →
  lru_scanned set (i + 1) hi lv1 lv' →
  lru_scanned set i hi lv lv'.
Proof.
  intros Hi Hv Hgt Hm1 Hv1 (Hm & Hub & Hcase).
  rewrite Hm1 in Hm, Hcase. rewrite Hv1 in Hcase.
  split_and!; [lia | |].
  - range_head i Hub. lia.
  - right. destruct Hcase as [[Hm' Hv'] | (Hlt & Hr & Hvv & Heq & Hbelow)].
    + rewrite Hv', Hm'. split_and!; [lia | lia | lia | done | done |].
      intros; lia.
    + split_and!; [lia | lia | lia | done | done |].
      range_head i Hbelow. lia.
Qed.

Lemma lru_scanned_keep i hi lv lv1 lv' :
  (is_valid (set_line set i) = true →
   lru_counter (set_line set i) ≤ max_lru lv) →
  max_lru lv1 = max_lru lv →
  lru_index lv1 = lru_index lv →
  lru_scanned set (i + 1) hi lv1 lv' →
  lru_scanned set i hi lv lv'.
Proof.
  intros Hle Hm1 Hv1 (Hm & Hub & Hcase).
  rewrite Hm1 in Hm, Hcase. rewrite Hv1 in Hcase.
  split_and!; [done | |].
  - range_head i Hub. intros Hv. specialize (Hle Hv). lia.
  - destruct Hcase as [[Hm' Hv'] | (Hlt & Hr & Hvv & Heq & Hbelow)].
    + by left.
    + right. split_and!; [lia | lia | lia | done | done |].
      range_head i Hbelow. intros Hv. specialize (Hle Hv). lia.
Qed.

End ScanFacts.

Section ScanLoop.

Variables (E tg si : Z) (st : state) (set : cache_set_t).
Hypothesis Hsi : 0 ≤ si.
Hypothesis Hset : cache st !! Z.to_nat si = Some set.

(** The scan either stops at the first line in use that holds the tag,
    or runs through all lines and leaves the state as it was. *)
Lemma accessData_loop_result n :
  ∀ i lv, 0 ≤ i →
    let r := accessData_loop E n i tg si st lv in
    (∃ h, i ≤ h < i + Z.of_nat n ∧ holds tg set h ∧
          (∀ j, i ≤ j < h → ¬ holds tg set j) ∧
          r.1 = hit_state E si h st ∧ hit r.2 = 1)
    ∨ (r.1 = st ∧ hit r.2 = hit lv ∧
       (∀ j, i ≤ j < i + Z.of_nat n → ¬ holds tg set j) ∧
       empty_scanned set i (i + Z.of_nat n) lv r.2 ∧
       lru_scanned set i (i + Z.of_nat n) lv r.2).
Proof using Hsi Hset.
  induction n as [|n IH]; intros i lv Hi; cbn zeta.
  { right. simpl. rewrite Z.add_0_r.
    split_and!; [done | done | intros; lia
                | apply empty_scanned_nil | apply lru_scanned_nil]. }
  replace (i + Z.of_nat (S n)) with (i + 1 + Z.of_nat n) by lia.
  cbn [accessData_loop]. rewrite (line_at_set si _ set) by done.
  destruct (is_valid (set_line set i)) eqn:Hv.
  - destruct (Z.eqb_spec (tag (set_line set i)) tg) as [Ht | Ht].
    { left. exists i. simpl.
      split_and!; [lia | lia | done | intros; lia | done | done]. }
    assert (Hno : ¬ holds tg set i) by (intros [_ ?]; done).
    destruct (Z.gtb_spec (lru_counter (set_line set i)) (max_lru lv))
      as [Hgt | Hle].
    + destruct (IH (i + 1)
        (mkLocals (hit lv) (empty_index lv) i (lru_counter (set_line set i)))
        ltac:(lia))
        as [(h & Hh & Hhold & Hfirst & Hst & Hhit)
           | (Hst & Hhit & Hnone & Hemp & Hlru)].
      * left. exists h.
        split_and!; [lia | lia | done | by range_head i Hfirst | done | done].
      * right. split_and!; [done | done | by range_head i Hnone | |].
        -- eapply empty_scanned_in_use; [done | | exact Hemp]. done.
        -- eapply lru_scanned_new; [lia | done | done | | | exact Hlru]; done.
    + destruct (IH (i + 1) lv ltac:(lia))
        as [(h & Hh & Hhold & Hfirst & Hst & Hhit)
           | (Hst & Hhit & Hnone & Hemp & Hlru)].
      * left. exists h.
        split_and!; [lia | lia | done | by range_head i Hfirst | done | done].
      * right. split_and!; [done | done | by range_head i Hnone | |].
        -- eapply empty_scanned_in_use; [done | | exact Hemp]. done.
        -- eapply lru_scanned_keep; [ | | | exact Hlru]; done.
  - assert (Hno : ¬ holds tg set i) by (intros [? _]; congruence).
    destruct (Z.eqb_spec (empty_index lv) (-1)) as [He | He].
    + destruct (IH (i + 1)
        (mkLocals (hit lv) i (lru_index lv) (max_lru lv)) ltac:(lia))
        as [(h & Hh & Hhold & Hfirst & Hst & Hhit)
           | (Hst & Hhit & Hnone & Hemp & Hlru)].
      * left. exists h.
        split_and!; [lia | lia | done | by range_head i Hfirst | done | done].
      * right. split_and!; [done | done | by range_head i Hnone | |].
        -- assert (Hr : 0 ≤ i < i + 1 + Z.of_nat n) by lia.
           pose proof (empty_scanned_found set i _ lv _ _ Hr Hv
                         (eq_refl : empty_index (mkLocals _ i _ _) = i) Hemp)
             as [Hfound | Hne]; done.
        -- eapply lru_scanned_keep; [ | | | exact Hlru]; [congruence|done..].
    + destruct (IH (i + 1) lv ltac:(lia))
        as [(h & Hh & Hhold & Hfirst & Hst & Hhit)
           | (Hst & Hhit & Hnone & Hemp & Hlru)].
      * left. exists h.
        split_and!; [lia | lia | done | by range_head i Hfirst | done | done].
      * right. split_and!; [done | done | by range_head i Hnone | |].
        -- by apply empty_scanned_kept.
        -- eapply lru_scanned_keep; [ | | | exact Hlru]; [congruence|done..].
Qed.

End ScanLoop.

(** ** Address decoding *)

Lemma pow2_le_30 s : 0 ≤ s ≤ 30 → 1 ≤ 2 ^ s ≤ 2 ^ 30.
Proof.
  intros Hs. split.
  - pose proof (Z.pow_pos_nonneg 2 s). lia.
  - apply Z.pow_le_mono_r; lia.
Qed.

Lemma decode_defined s b E addr :
  valid_config s b E →
  decode s b addr
  = Some (Z.shiftr addr (s + b), Z.shiftr addr b mod 2 ^ s).
Proof.
  intros (Hs & Hb & Hsb & _). unfold decode, shr_u64, shl_int.
  pose proof (pow2_le_30 s Hs) as Hp. change (2 ^ 30) with 1073741824 in Hp.
  rewrite (wrap_int_small (s + b)) by (unfold INT_MIN, INT_MAX; lia).
  assert (H1 : (0 <=? s + b) && (s + b <? 64) = true) by lia.
  assert (H2 : (0 <=? b) && (b <? 64) = true) by lia.
  assert (H3 : (0 <=? s) && (s <? 32) && (0 <=? 1) && (1 * 2 ^ s <=? INT_MAX)
               = true) by (unfold INT_MAX; lia).
  rewrite H1, H2, H3. simpl. do 2 f_equal.
  rewrite Z.shiftl_1_l.
  rewrite (wrap_int_small (2 ^ s - 1)) by (unfold INT_MIN, INT_MAX; lia).
  unfold to_u64. rewrite (Z.mod_small (2 ^ s - 1)) by lia.
  replace (2 ^ s - 1) with (Z.ones s) by (rewrite Z.ones_equiv; lia).
  rewrite Z.land_ones by lia.
  pose proof (Z.mod_pos_bound (Z.shiftr addr b) (2 ^ s) ltac:(lia)).
  apply wrap_int_small. unfold INT_MIN, INT_MAX. lia.
Qed.

Lemma decode_set_in_grid s b E addr c :
  valid_config s b E → wf_cache s E c →
  ∃ tg si set,
    decode s b addr = Some (tg, si) ∧ 0 ≤ si < 2 ^ s ∧
    c !! Z.to_nat si = Some set ∧ length set = Z.to_nat E.
Proof.
  intros Hcfg [Hlen Hsets].
  pose proof Hcfg as (Hs & _).
  pose proof (pow2_le_30 s Hs) as Hp.
  pose proof (Z.mod_pos_bound (Z.shiftr addr b) (2 ^ s) ltac:(lia)) as Hr.
  destruct (lookup_lt_is_Some_2 c (Z.to_nat (Z.shiftr addr b mod 2 ^ s)))
    as [set Hset]; [lia |].
  exists (Z.shiftr addr (s + b)), (Z.shiftr addr b mod 2 ^ s), set.
  split_and!; [by eapply decode_defined | lia | lia | done |].
  by eapply (proj1 (Forall_lookup _ _) Hsets).
Qed.

(** ** One access, seen on the set it maps to *)

Lemma accessData_step s b E addr st :
  valid_config s b E → wf_cache s E (cache st) →
  ∃ tg si set set' o,
    decode s b addr = Some (tg, si) ∧ 0 ≤ si < 2 ^ s ∧
    cache st !! Z.to_nat si = Some set ∧ length set = Z.to_nat E ∧
    access_step E tg set set' o ∧
    accessData s b E addr st
    = Some (counted o (<[Z.to_nat si := set']> (cache st)) st, o).
Proof.
  intros Hcfg Hwf.
  destruct (decode_set_in_grid s b E addr _ Hcfg Hwf)
    as (tg & si & set & Hdec & Hsi & Hset & Hlen).
  pose proof Hcfg as (_ & _ & _ & HE).
  assert (Hsi0 : 0 ≤ si) by lia.
  assert (HEn : 0 + Z.of_nat (Z.to_nat E) = E) by lia.
  assert (Hk : (Z.to_nat si < length (cache st))%nat)
    by (eapply lookup_lt_Some; eauto).
  exists tg, si, set.
  assert (Hin : in_grid E si (cache st) = true).
  { unfold in_grid. rewrite zlookup_nonneg, Hset by done.
    apply Z.leb_le. lia. }
  unfold accessData. rewrite Hdec. cbn [mbind option_bind]. rewrite Hin.
  pose proof (accessData_loop_result E tg si st set Hsi0 Hset
                (Z.to_nat E) 0 locals0 ltac:(lia)) as Hloop.
  cbn zeta in Hloop. rewrite HEn in Hloop. fold locals0.
  destruct (accessData_loop E (Z.to_nat E) 0 tg si st locals0) as [st1 lv].
  simpl in Hloop.
  destruct Hloop as [(h & Hh & Hhold & Hfirst & Hst & Hhit)
                    | (Hst & Hhit & Hnone & Hemp & Hlru)].
  - (* hit *)
    exists (touch E h set), Vhit. rewrite Hhit. simpl.
    split_and!; [done | lia | lia | done | done | by constructor |].
    rewrite Hst. unfold hit_state, counted.
    by rewrite (updateLRU_insert E si h _ set) by (done || lia).
  - rewrite Hhit. simpl. subst st1.
    destruct Hemp as [_ Hemp]. specialize (Hemp eq_refl).
    destruct (Z.eqb_spec (empty_index lv) (-1)) as [He | He]; simpl.
    + (* every line in use: eviction *)
      destruct Hemp as [[_ Hall] | (Hr & _)]; [| lia].
      assert (Hv : 0 ≤ lru_index lv < E).
      { destruct Hlru as (_ & _ & [[_ ->] | (_ & ? & _)]); simpl; lia. }
      exists (touch E (lru_index lv)
                (zalter (set_tag tg) (lru_index lv) set)), Vmiss_eviction.
      split_and!; [done | lia | lia | done | done | by constructor |].
      unfold counted.
      rewrite (modify_line_insert si _ set) by done.
      rewrite (updateLRU_insert E si _ _
                 (zalter (set_tag tg) (lru_index lv) set));
        [| done | lia | by apply list_lookup_insert_eq].
      by rewrite list_insert_insert_eq.
    + (* a line not in use: placement *)
      destruct Hemp as [[He' _] | (Hr & Hinv & Hbefore)]; [done |].
      exists (touch E (empty_index lv)
                (zalter (set_tag tg) (empty_index lv)
                   (zalter (set_valid 1) (empty_index lv) set))), Vmiss.
      split_and!; [done | lia | lia | done | done | by constructor |].
      unfold counted.
      rewrite (modify_line_insert si (cache st) set) by done.
      rewrite (modify_line_insert si _
                 (zalter (set_valid 1) (empty_index lv) set));
        [| done | by apply list_lookup_insert_eq].
      rewrite list_insert_insert_eq.
      rewrite (updateLRU_insert E si _ _
                 (zalter (set_tag tg) (empty_index lv)
                    (zalter (set_valid 1) (empty_index lv) set)));
        [| done | lia | by apply list_lookup_insert_eq].
      by rewrite list_insert_insert_eq.
Qed.

(** ** Reading lines of a set *)

Lemma set_line_lookup (set : cache_set_t) j :
  0 ≤ j < Z.of_nat (length set) →
  set !! Z.to_nat j = Some (set_line set j).
Proof.
  intros Hj. unfold set_line. rewrite zlookup_nonneg by lia.
  destruct (lookup_lt_is_Some_2 set (Z.to_nat j)) as [l Hl]; [lia |].
  by rewrite Hl.
Qed.

Lemma lookup_set_line (set : cache_set_t) k l :
  set !! k = Some l →
  set_line set (Z.of_nat k) = l ∧ 0 ≤ Z.of_nat k < Z.of_nat (length set).
Proof.
  intros Hl. unfold set_line. rewrite zlookup_nonneg by lia.
  rewrite Nat2Z.id, Hl. split; [done |].
  apply lookup_lt_Some in Hl. lia.
Qed.

Lemma set_line_zalter f i (set : cache_set_t) j :
  0 ≤ j < Z.of_nat (length set) →
  set_line (zalter f i set) j
  = if j =? i then f (set_line set j) else set_line set j.
Proof.
  intros Hj. pose proof (set_line_lookup set j Hj) as Hl.
  unfold set_line at 1. rewrite zlookup_nonneg by lia.
  unfold zalter. destruct (Z.ltb_spec i 0).
  - destruct (Z.eqb_spec j i); [lia |]. by rewrite Hl.
  - destruct (Z.eqb_spec j i) as [-> | Hne].
    + by rewrite list_lookup_alter_eq, Hl.
    + rewrite list_lookup_alter_ne by lia. by rewrite Hl.
Qed.

Lemma set_line_touch E li (set : cache_set_t) j :
  length set = Z.to_nat E → 0 ≤ j < E →
  set_line (touch E li set) j = touch_line li j (set_line set j).
Proof.
  intros Hlen Hj.
  pose proof (set_line_lookup set j ltac:(lia)) as Hl.
  unfold set_line at 1. rewrite zlookup_nonneg by lia.
  rewrite touch_lookup by done. rewrite Hl. simpl.
  by rewrite Z2Nat.id by lia.
Qed.

Lemma touch_line_fields li j l :
  valid (touch_line li j l) = valid l ∧ tag (touch_line li j l) = tag l.
Proof.
  unfold touch_line. destruct (j =? li); [done |].
  by destruct (is_valid l).
Qed.

Lemma is_valid_touch_line li j l : is_valid (touch_line li j l) = is_valid l.
Proof. unfold is_valid. by rewrite (proj1 (touch_line_fields li j l)). Qed.

Lemma holds_touch E li tg (set : cache_set_t) j :
  length set = Z.to_nat E → 0 ≤ j < E →
  holds tg (touch E li set) j ↔ holds tg set j.
Proof.
  intros Hlen Hj. unfold holds. rewrite set_line_touch by done.
  by rewrite is_valid_touch_line, (proj2 (touch_line_fields li j _)).
Qed.

(** ** Consequences of one access for the set *)

Lemma access_step_length E tg set set' o :
  access_step E tg set set' o → length set' = length set.
Proof.
  intros Hstep. destruct Hstep;
    by rewrite length_touch, ?length_zalter.
Qed.

(** After the access some line [t] holds the tag; the other lines keep
    their valid byte and tag; and the access was a hit exactly when a line
    held the tag before. *)
Lemma access_step_view E tg set set' o :
  length set = Z.to_nat E →
  access_step E tg set set' o →
  ∃ t, 0 ≤ t < E ∧ holds tg set' t ∧
       (∀ j, 0 ≤ j < E → j ≠ t →
             valid (set_line set' j) = valid (set_line set j) ∧
             tag (set_line set' j) = tag (set_line set j)) ∧
       match o with
       | Vhit => holds tg set t
       | _ => ∀ j, 0 ≤ j < E → ¬ holds tg set j
       end.
Proof.
  intros Hlen Hstep.
  destruct Hstep as [h Hh Hhold Hfirst
                    | e Hnone He Hinv Hbefore
                    | lv Hnone Hall Hlru Hv].
  - exists h. split_and!; [lia | lia | | | done].
    + by apply holds_touch.
    + intros j Hj Hne. rewrite set_line_touch by done.
      apply touch_line_fields.
  - exists e. split_and!; [lia | lia | | | done].
    + apply holds_touch; [by rewrite !length_zalter | done |].
      unfold holds.
      rewrite !set_line_zalter by (rewrite ?length_zalter; lia).
      by rewrite Z.eqb_refl.
    + intros j Hj Hne.
      rewrite set_line_touch by (by rewrite ?length_zalter).
      rewrite !set_line_zalter by (rewrite ?length_zalter; lia).
      destruct (Z.eqb_spec j e); [done |]. apply touch_line_fields.
  - exists (lru_index lv). split_and!; [lia | lia | | | done].
    + apply holds_touch; [by rewrite !length_zalter | done |].
      unfold holds.
      rewrite !set_line_zalter by (rewrite ?length_zalter; lia).
      rewrite Z.eqb_refl. split; [| done].
      apply (Hall (lru_index lv)). lia.
    + intros j Hj Hne.
      rewrite set_line_touch by (by rewrite ?length_zalter).
      rewrite !set_line_zalter by (rewrite ?length_zalter; lia).
      destruct (Z.eqb_spec j (lru_index lv)); [done |].
      apply touch_line_fields.
Qed.

(** A line that holds the tag forces a hit. *)
Lemma access_step_hit E tg set set' o t :
  0 ≤ t < E → holds tg set t → access_step E tg set set' o → o = Vhit.
Proof.
  intros Ht Hhold Hstep.
  destruct Hstep as [| e Hnone | lv Hnone]; [done | ..];
    by destruct (Hnone t Ht).
Qed.

Lemma distinct_tags_lines (set : cache_set_t) :
  distinct_tags set ↔
  ∀ i j, 0 ≤ i < Z.of_nat (length set) → 0 ≤ j < Z.of_nat (length set) →
         is_valid (set_line set i) = true →
         is_valid (set_line set j) = true →
         tag (set_line set i) = tag (set_line set j) → i = j.
Proof.
  split.
  - intros Hd i j Hi Hj Hvi Hvj Ht.
    pose proof (Hd _ _ _ _ (set_line_lookup set i Hi)
                  (set_line_lookup set j Hj) Hvi Hvj Ht). lia.
  - intros Hd i j li lj Hi Hj Hvi Hvj Ht.
    destruct (lookup_set_line set i li Hi) as [Hli Hri].
    destruct (lookup_set_line set j lj Hj) as [Hlj Hrj].
    subst li lj.
    pose proof (Hd _ _ Hri Hrj Hvi Hvj Ht). lia.
Qed.

Lemma access_step_distinct_tags E tg set set' o :
  length set = Z.to_nat E →
  access_step E tg set set' o →
  distinct_tags set → distinct_tags set'.
Proof.
  intros Hlen Hstep Hd.
  pose proof (access_step_length _ _ _ _ _ Hstep) as Hlen'.
  destruct (access_step_view _ _ _ _ _ Hlen Hstep)
    as (t & Ht & Hholdt & Hother & Hbefore).
  rewrite distinct_tags_lines in Hd. rewrite distinct_tags_lines.
  rewrite Hlen'.
  assert (Hcross : ∀ j, 0 ≤ j < E → j ≠ t →
            is_valid (set_line set' j) = true →
            tag (set_line set' j) = tg → False).
  { intros j Hj Hne Hvj Htj.
    destruct (Hother j Hj Hne) as [Hval Htag].
    assert (Hholdj : holds tg set j).
    { unfold holds, is_valid in *. by rewrite <- Hval, <- Htag. }
    destruct o; [| by apply (Hbefore j Hj)..].
    destruct Hbefore as [Hvt Htt], Hholdj as [Hvj' Htj'].
    apply Hne, Hd; [lia | lia | done | done | congruence]. }
  intros i j Hi Hj Hvi Hvj Htag.
  destruct Hholdt as [Hvt Htt].
  destruct (decide (i = t)) as [-> | Hit], (decide (j = t)) as [-> | Hjt];
    try done.
  - exfalso. apply (Hcross j); [lia | done | done | congruence].
  - exfalso. apply (Hcross i); [lia | done | done | congruence].
  - destruct (Hother i ltac:(lia) Hit) as [Hvali Htagi].
    destruct (Hother j ltac:(lia) Hjt) as [Hvalj Htagj].
    unfold is_valid in *.
    apply Hd; [lia | lia | | | ]; congruence.
Qed.

Lemma line_at_insert (c : cache_t) si (set' : cache_set_t) i :
  0 ≤ si → (Z.to_nat si < length c)%nat →
  line_at (<[Z.to_nat si := set']> c) si i = set_line set' i.
Proof.
  intros Hsi Hk. apply line_at_set; [done |].
  by apply list_lookup_insert_eq.
Qed.

Lemma wf_cache_set s E (c : cache_t) si :
  wf_cache s E c → 0 ≤ si < 2 ^ s →
  ∃ set, c !! Z.to_nat si = Some set ∧ length set = Z.to_nat E.
Proof.
  intros [Hlen Hsets] Hsi.
  destruct (lookup_lt_is_Some_2 c (Z.to_nat si)) as [set Hset]; [lia |].
  exists set. split; [done |].
  by eapply (proj1 (Forall_lookup _ _) Hsets).
Qed.

Lemma wf_cache_insert s E (c : cache_t) k (set' : cache_set_t) :
  wf_cache s E c → length set' = Z.to_nat E →
  wf_cache s E (<[k := set']> c).
Proof.
  intros [Hlen Hsets] Hlen'. split; [by rewrite length_insert |].
  apply Forall_lookup. intros j x Hx.
  apply list_lookup_insert_Some in Hx
    as [(-> & <- & _) | (_ & Hx)]; [done |].
  by eapply (proj1 (Forall_lookup _ _) Hsets).
Qed.

(** ** Two accesses in a row *)

Lemma cache_counted o c st : cache (counted o c st) = c.
Proof. by destruct o. Qed.

Lemma accessData_twice s b E addr st :
  valid_config s b E → wf_cache s E (cache st) →
  ∃ st1 o1 st2,
    accessData s b E addr st = Some (st1, o1) ∧
    accessData s b E addr st1 = Some (st2, Vhit) ∧
    st1 = counted o1 (cache st1) st ∧
    st2 = counted Vhit (cache st2) st1.
Proof.
  intros Hcfg Hwf.
  destruct (accessData_step s b E addr st Hcfg Hwf)
    as (tg & si & set & set' & o & Hdec & Hsi & Hset & Hlen & Hstep & Hacc).
  set (st1 := counted o (<[Z.to_nat si := set']> (cache st)) st) in *.
  assert (Hc1 : cache st1 = <[Z.to_nat si := set']> (cache st))
    by apply cache_counted.
  assert (Hlen' : length set' = Z.to_nat E)
    by (by rewrite (access_step_length _ _ _ _ _ Hstep)).
  assert (Hwf1 : wf_cache s E (cache st1))
    by (rewrite Hc1; by apply wf_cache_insert).
  destruct (accessData_step s b E addr st1 Hcfg Hwf1)
    as (tg2 & si2 & set2 & set2' & o2 & Hdec2 & _ & Hset2 & _ & Hstep2 & Hacc2).
  rewrite Hdec in Hdec2. injection Hdec2 as <- <-.
  rewrite Hc1, list_lookup_insert_eq in Hset2
    by (by eapply lookup_lt_Some).
  injection Hset2 as <-.
  destruct (access_step_view _ _ _ _ _ Hlen Hstep) as (t & Ht & Hhold & _).
  pose proof (access_step_hit _ _ _ _ _ t Ht Hhold Hstep2) as ->.
  exists st1, o, (counted Vhit (<[Z.to_nat si := set2']> (cache st1)) st1).
  split_and!; [done | done | | done].
  subst st1. by rewrite cache_counted.
Qed.

(** ** The shape of the grid and the tags of a set *)

Lemma wf_cache_init s E : wf_cache s E (initCache s E).
Proof.
  unfold initCache, num_sets. split; [by rewrite length_replicate |].
  apply Forall_replicate. by rewrite length_replicate.
Qed.

Lemma distinct_tags_init s E : Forall distinct_tags (initCache s E).
Proof.
  apply Forall_replicate. intros i j li lj Hi _ Hvi _ _.
  apply lookup_replicate in Hi as [-> _]. done.
Qed.

Lemma accessData_invariant s b E addr st :
  valid_config s b E →
  wf_cache s E (cache st) → Forall distinct_tags (cache st) →
  ∃ st' o,
    accessData s b E addr st = Some (st', o) ∧
    wf_cache s E (cache st') ∧ Forall distinct_tags (cache st').
Proof.
  intros Hcfg Hwf Hd.
  destruct (accessData_step s b E addr st Hcfg Hwf)
    as (tg & si & set & set' & o & Hdec & Hsi & Hset & Hlen & Hstep & Hacc).
  exists (counted o (<[Z.to_nat si := set']> (cache st)) st), o.
  rewrite cache_counted. split_and!; [done | |].
  - apply wf_cache_insert; [done |].
    by rewrite (access_step_length _ _ _ _ _ Hstep).
  - apply Forall_insert; [done |].
    eapply access_step_distinct_tags; [done | done |].
    by eapply (proj1 (Forall_lookup _ _) Hd).
Qed.

Lemma accessData_seq_invariant s b E addrs :
  valid_config s b E →
  ∀ st, wf_cache s E (cache st) → Forall distinct_tags (cache st) →
    ∃ st', accessData_seq s b E addrs st = Some st' ∧
           wf_cache s E (cache st') ∧ Forall distinct_tags (cache st').
Proof.
  intros Hcfg. induction addrs as [| a rest IH]; intros st Hwf Hd.
  - by exists st.
  - destruct (accessData_invariant s b E a st Hcfg Hwf Hd)
      as (st1 & o & Hacc & Hwf1 & Hd1).
    destruct (IH st1 Hwf1 Hd1) as (st' & Hseq & Hwf' & Hd').
    exists st'. simpl. rewrite Hacc. simpl. done.
Qed.

(** ** Counting the accesses of a replay *)

Lemma char_at_fgets_store chunk buf :
  chunk ≠ [] → char_at (fgets_store chunk buf) 1 = char_at chunk 1.
Proof.
  intros Hne. destruct chunk as [| c [| c' r]]; done.
Qed.

Lemma record_accesses_nonneg op : 0 ≤ record_accesses op.
Proof.
  unfold record_accesses. destruct (Ascii.eqb op "M"); [lia |].
  destruct (is_LSM op); lia.
Qed.

Lemma trace_accesses_nonneg file : 0 ≤ trace_accesses file.
Proof.
  induction file as [| chunk rest IH]; simpl; [lia |].
  pose proof (record_accesses_nonneg (char_at chunk 1)). lia.
Qed.

Lemma accessData_counts s b E addr st :
  valid_config s b E → wf_cache s E (cache st) →
  0 ≤ hit_count st → 0 ≤ miss_count st →
  hit_count st + miss_count st < INT_MAX →
  ∃ st' o,
    accessData s b E addr st = Some (st', o) ∧
    wf_cache s E (cache st') ∧
    0 ≤ hit_count st' ∧ 0 ≤ miss_count st' ∧
    hit_count st' + miss_count st' = hit_count st + miss_count st + 1.
Proof.
  intros Hcfg Hwf Hh Hm Hsum.
  destruct (accessData_step s b E addr st Hcfg Hwf)
    as (tg & si & set & set' & o & Hdec & Hsi & Hset & Hlen & Hstep & Hacc).
  exists (counted o (<[Z.to_nat si := set']> (cache st)) st), o.
  rewrite cache_counted.
  assert (Hih : int_incr (hit_count st) = hit_count st + 1)
    by (apply int_incr_small; unfold INT_MIN; lia).
  assert (Him : int_incr (miss_count st) = miss_count st + 1)
    by (apply int_incr_small; unfold INT_MIN; lia).
  split_and!; [done | | ..].
  - apply wf_cache_insert; [done |].
    by rewrite (access_step_length _ _ _ _ _ Hstep).
  - destruct o; simpl; lia.
  - destruct o; simpl; lia.
  - destruct o; simpl; lia.
Qed.

Lemma replayTrace_loop_counts s b E sscanf_llx_u file :
  valid_config s b E →
  Forall (λ chunk, chunk ≠ []) file →
  ∀ buf addr st,
    wf_cache s E (cache st) →
    0 ≤ hit_count st → 0 ≤ miss_count st →
    hit_count st + miss_count st + trace_accesses file ≤ INT_MAX →
    ∃ st',
      replayTrace_loop s b E sscanf_llx_u file buf addr st = Some st' ∧
      hit_count st' + miss_count st'
      = hit_count st + miss_count st + trace_accesses file.
Proof.
  intros Hcfg Hfile.
  induction Hfile as [| chunk rest Hne _ IH]; intros buf addr st Hwf Hh Hm Hsum.
  { exists st. simpl. split; [done | lia]. }
  cbn [replayTrace_loop trace_accesses] in *. cbn zeta.
  rewrite char_at_fgets_store by done.
  pose proof (trace_accesses_nonneg rest) as Hrest.
  unfold record_accesses in *.
  destruct (is_LSM (char_at chunk 1)) eqn:Hop.
  - set (a := scanned_addr addr
                (sscanf_llx_u (cstring (drop 3 (fgets_store chunk buf))))).
    destruct (Ascii.eqb (char_at chunk 1) "M") eqn:HM.
    + destruct (accessData_counts s b E a st Hcfg Hwf Hh Hm ltac:(lia))
        as (st1 & o1 & Hacc1 & Hwf1 & Hh1 & Hm1 & Hsum1).
      destruct (accessData_counts s b E a st1 Hcfg Hwf1 Hh1 Hm1 ltac:(lia))
        as (st2 & o2 & Hacc2 & Hwf2 & Hh2 & Hm2 & Hsum2).
      rewrite Hacc1. simpl. rewrite Hacc2. simpl.
      destruct (IH (fgets_store chunk buf) a st2 Hwf2 Hh2 Hm2 ltac:(lia))
        as (st' & Hrun & Hcount).
      exists st'. split; [done | lia].
    + destruct (accessData_counts s b E a st Hcfg Hwf Hh Hm ltac:(lia))
        as (st1 & o1 & Hacc1 & Hwf1 & Hh1 & Hm1 & Hsum1).
      rewrite Hacc1. simpl.
      destruct (IH (fgets_store chunk buf) a st1 Hwf1 Hh1 Hm1 ltac:(lia))
        as (st' & Hrun & Hcount).
      exists st'. split; [done | lia].
  - assert (HM : Ascii.eqb (char_at chunk 1) "M" = false).
    { unfold is_LSM in Hop. by destruct (Ascii.eqb (char_at chunk 1) "M");
        [rewrite orb_true_r in Hop |]. }
    rewrite HM in *.
    destruct (IH (fgets_store chunk buf) addr st Hwf Hh Hm ltac:(lia))
      as (st' & Hrun & Hcount).
    exists st'. split; [done | lia].
Qed.

(** ** C1: the eviction victim *)

(** C1: when the set an address maps to has every line in use and none of
    them holds the tag, the access is a miss with eviction, and the line
    whose tag is overwritten is the earliest-indexed line among those with
    the greatest recency counter: no line has a greater counter and every
    line before it has a strictly smaller one.  The victim then holds the
    new tag with counter 0 and every other line keeps its tag.  In
    particular, with two lines of equal counters the victim is line 0.
    Recency counters are non-negative, as in the data model. *)
Theorem eviction_victim_is_first_maximum s b E addr st tg setIndex :
  valid_config s b E → wf_cache s E (cache st) →
  decode s b addr = Some (tg, setIndex) →
  (∀ j, 0 ≤ j < E → is_valid (line_at (cache st) setIndex j) = true) →
  (∀ j, 0 ≤ j < E → tag (line_at (cache st) setIndex j) ≠ tg) →
  (∀ j, 0 ≤ j < E → 0 ≤ lru_counter (line_at (cache st) setIndex j)) →
  ∃ v st',
    0 ≤ v < E ∧
    (∀ j, 0 ≤ j < E →
          lru_counter (line_at (cache st) setIndex j)
          ≤ lru_counter (line_at (cache st) setIndex v)) ∧
    (∀ j, 0 ≤ j < v →
          lru_counter (line_at (cache st) setIndex j)
          < lru_counter (line_at (cache st) setIndex v)) ∧
    accessData s b E addr st = Some (st', Vmiss_eviction) ∧
    eviction_count st' = int_incr (eviction_count st) ∧
    tag (line_at (cache st') setIndex v) = tg ∧
    lru_counter (line_at (cache st') setIndex v) = 0 ∧
    (∀ j, 0 ≤ j < E → j ≠ v →
          tag (line_at (cache st') setIndex j)
          = tag (line_at (cache st) setIndex j)) ∧
    (E = 2 →
     lru_counter (line_at (cache st) setIndex 0)
     = lru_counter (line_at (cache st) setIndex 1) → v = 0).
Proof.
  intros Hcfg Hwf Hdec Hall Hnone Hnonneg.
  destruct (accessData_step s b E addr st Hcfg Hwf)
    as (tg' & si & set & set' & o & Hdec' & Hsi & Hset & Hlen & Hstep & Hacc).
  rewrite Hdec in Hdec'. injection Hdec' as <- <-.
  pose proof Hcfg as (_ & _ & _ & HE).
  assert (Hk : (Z.to_nat setIndex < length (cache st))%nat)
    by (by eapply lookup_lt_Some).
  assert (Hrd : ∀ j, line_at (cache st) setIndex j = set_line set j)
    by (intros j; apply line_at_set; [lia | done]).
  setoid_rewrite Hrd in Hall. setoid_rewrite Hrd in Hnone.
  setoid_rewrite Hrd in Hnonneg. setoid_rewrite Hrd.
  destruct Hstep as [h Hh [_ Hhold] _
                    | e _ He Hinv _
                    | lv _ _ (Hm & Hub & Hcase) Hv].
  - by destruct (Hnone h Hh).
  - rewrite Hall in Hinv by done. done.
  - destruct Hcase as [[Hm' _] | (Hlt & Hr & Hvv & Heq & Hbelow)].
    { pose proof (Hub 0 ltac:(lia) (Hall 0 ltac:(lia))) as H0.
      pose proof (Hnonneg 0 ltac:(lia)). simpl in Hm'. lia. }
    exists (lru_index lv), (counted Vmiss_eviction
      (<[Z.to_nat setIndex :=
           touch E (lru_index lv) (zalter (set_tag tg) (lru_index lv) set)]>
         (cache st)) st).
    simpl.
    rewrite !line_at_insert by (lia || done).
    split_and!; [lia | lia | | | done | done | | | |].
    + intros j Hj. rewrite Heq. apply Hub; [lia | by apply Hall].
    + intros j Hj. rewrite Heq. apply Hbelow; [lia | apply Hall; lia].
    + rewrite set_line_touch by (by rewrite ?length_zalter).
      rewrite (proj2 (touch_line_fields _ _ _)).
      rewrite set_line_zalter by lia. by rewrite Z.eqb_refl.
    + rewrite set_line_touch by (by rewrite ?length_zalter).
      unfold touch_line. by rewrite Z.eqb_refl.
    + intros j Hj Hne. setoid_rewrite line_at_insert; [| lia | done].
      rewrite set_line_touch by (by rewrite ?length_zalter).
      rewrite (proj2 (touch_line_fields _ _ _)).
      rewrite set_line_zalter by lia.
      by destruct (Z.eqb_spec j (lru_index lv)).
    + intros -> Heq01.
      destruct (decide (lru_index lv = 0)) as [| Hne]; [done |].
      pose proof (Hbelow 0 ltac:(lia) (Hall 0 ltac:(lia))) as Hlt0.
      replace (lru_index lv) with 1 in * by lia. lia.
Qed.

Lemma eviction_victim_is_first_maximum_witness :
  let st := mkState [[mkLine 1 5 7; mkLine 1 6 7]; [line0; line0]] 0 2 0 in
  ∃ v st',
    0 ≤ v < 2 ∧
    (∀ j, 0 ≤ j < 2 →
          lru_counter (line_at (cache st) 0 j)
          ≤ lru_counter (line_at (cache st) 0 v)) ∧
    (∀ j, 0 ≤ j < v →
          lru_counter (line_at (cache st) 0 j)
          < lru_counter (line_at (cache st) 0 v)) ∧
    accessData 1 1 2 36 st = Some (st', Vmiss_eviction) ∧
    eviction_count st' = int_incr (eviction_count st) ∧
    tag (line_at (cache st') 0 v) = 9 ∧
    lru_counter (line_at (cache st') 0 v) = 0 ∧
    (∀ j, 0 ≤ j < 2 → j ≠ v →
          tag (line_at (cache st') 0 j) = tag (line_at (cache st) 0 j)) ∧
    (2 = 2 →
     lru_counter (line_at (cache st) 0 0)
     = lru_counter (line_at (cache st) 0 1) → v = 0).
Proof.
  intros st. apply (eviction_victim_is_first_maximum 1 1 2 36 st 9 0).
  - unfold valid_config, INT_MAX. lia.
  - split; [reflexivity | repeat constructor].
  - reflexivity.
  - intros j Hj. assert (j = 0 ∨ j = 1) as [-> | ->] by lia; reflexivity.
  - intros j Hj. assert (j = 0 ∨ j = 1) as [-> | ->] by lia; vm_compute;
      congruence.
  - intros j Hj. assert (j = 0 ∨ j = 1) as [-> | ->] by lia; vm_compute;
      congruence.
Defined.

(** ** C2: address decoding *)

(** C2, as stated, fails: with [s = 32] and [b = 1] the sum [s + b] is
    within the 64-bit address width, but [1 << 32] has no value on a
    32-bit [int], so the code decodes nothing; the set index the claim
    promises for address [2^32] would not even fit the [int] variable
    [setIndex].  With [s = 30] and [b = 34] the sum is 64 and the tag is
    the address shifted by the full width of its type, which has no value
    either. *)
Lemma decode_wide_index_undefined :
  (32 + 1 ≤ 64 ∧ 0 ≤ 2 ^ 32 < 2 ^ 64 ∧
   decode 32 1 (2 ^ 32)
   ≠ Some (Z.shiftr (2 ^ 32) (32 + 1), Z.shiftr (2 ^ 32) 1 mod 2 ^ 32) ∧
   INT_MAX < Z.shiftr (2 ^ 32) 1 mod 2 ^ 32) ∧
  (30 + 34 ≤ 64 ∧ 0 ≤ 2 ^ 63 < 2 ^ 64 ∧
   decode 30 34 (2 ^ 63)
   ≠ Some (Z.shiftr (2 ^ 63) (30 + 34), Z.shiftr (2 ^ 63) 34 mod 2 ^ 30)).
Proof. vm_compute. split_and!; congruence. Qed.

(** C2, amended: for set-index bits [0 <= s <= 30] (so that [1 << s] is
    an [int]), block bits [b >= 0] and [s + b <= 63], the address is
    decoded into [tag = addr >> (s + b)] and
    [setIndex = (addr >> b) mod 2^s].  The decoding is a function of the
    address and the two parameters alone: it reads and writes no state. *)
Theorem decode_tag_and_set_index s b addr :
  0 ≤ s ≤ 30 → 0 ≤ b → s + b ≤ 63 → 0 ≤ addr < 2 ^ 64 →
  decode s b addr
  = Some (Z.shiftr addr (s + b), Z.shiftr addr b mod 2 ^ s).
Proof.
  intros Hs Hb Hsb _. apply (decode_defined s b 1).
  unfold valid_config, INT_MAX. lia.
Qed.

Lemma decode_tag_and_set_index_witness :
  decode 4 4 8384512
  = Some (Z.shiftr 8384512 (4 + 4), Z.shiftr 8384512 4 mod 2 ^ 4).
Proof. apply decode_tag_and_set_index; lia. Defined.

(** ** C3: the recency update *)

(** C3: [updateLRU(setIndex, lineIndex)] on a well-formed grid leaves the
    valid byte and the tag of every line of the set as they were, sets the
    counter of line [lineIndex] to 0 whether or not that line is in use,
    adds exactly 1 to the counter of every other line in use, and leaves
    the counter of every other line not in use as it was.  The counters
    that are incremented are assumed below [INT_MAX], where [++] is
    defined. *)
Theorem updateLRU_acts_on_whole_set s E c setIndex lineIndex :
  wf_cache s E c → 0 ≤ setIndex < 2 ^ s → 0 ≤ lineIndex < E →
  (∀ i, 0 ≤ i < E → i ≠ lineIndex →
        is_valid (line_at c setIndex i) = true →
        INT_MIN ≤ lru_counter (line_at c setIndex i) < INT_MAX) →
  ∀ i, 0 ≤ i < E →
    let old := line_at c setIndex i in
    let new := line_at (updateLRU E setIndex lineIndex c) setIndex i in
    valid new = valid old ∧ tag new = tag old ∧
    lru_counter new
    = if i =? lineIndex then 0
      else if is_valid old then lru_counter old + 1
      else lru_counter old.
Proof.
  intros Hwf Hsi Hli Hbound i Hi. cbn zeta.
  destruct (wf_cache_set s E c setIndex Hwf Hsi) as (set & Hset & Hlen).
  specialize (Hbound i Hi).
  rewrite (line_at_set setIndex c set) in * by (lia || done).
  rewrite (updateLRU_insert E setIndex lineIndex c set) by (lia || done).
  rewrite line_at_insert by (lia || by eapply lookup_lt_Some).
  rewrite set_line_touch by done.
  split_and!; [apply touch_line_fields | apply touch_line_fields |].
  unfold touch_line.
  destruct (Z.eqb_spec i lineIndex) as [-> | Hne]; [done |].
  destruct (is_valid (set_line set i)); [| done].
  simpl. apply int_incr_small. by apply Hbound.
Qed.

Lemma updateLRU_acts_on_whole_set_witness :
  let c := [[mkLine 1 5 3; mkLine 0 0 0; mkLine 1 6 0]] in
  let c' := updateLRU 3 0 1 c in
  (valid (line_at c' 0 0) = 1 ∧ tag (line_at c' 0 0) = 5 ∧
   lru_counter (line_at c' 0 0) = 3 + 1) ∧
  (valid (line_at c' 0 1) = 0 ∧ tag (line_at c' 0 1) = 0 ∧
   lru_counter (line_at c' 0 1) = 0) ∧
  (valid (line_at c' 0 2) = 1 ∧ tag (line_at c' 0 2) = 6 ∧
   lru_counter (line_at c' 0 2) = 0 + 1).
Proof.
  intros c c'.
  assert (Hwf : wf_cache 0 3 c) by (split; [reflexivity | repeat constructor]).
  assert (Hbound : ∀ i, 0 ≤ i < 3 → i ≠ 1 →
            is_valid (line_at c 0 i) = true →
            INT_MIN ≤ lru_counter (line_at c 0 i) < INT_MAX).
  { intros i Hi Hne _.
    assert (i = 0 ∨ i = 2) as [-> | ->] by lia; vm_compute;
      split; congruence. }
  pose proof (updateLRU_acts_on_whole_set 0 3 c 0 1 Hwf ltac:(lia) ltac:(lia)
                Hbound) as Hlines.
  exact (conj (Hlines 0 ltac:(lia))
           (conj (Hlines 1 ltac:(lia)) (Hlines 2 ltac:(lia)))).
Defined.

(** ** C4: immediate re-access *)

(** C4: on a well-formed grid, two calls of [accessData] in a row with
    the same address both return and the second is a hit: it adds one to
    [hit_count] and leaves [miss_count] and [eviction_count] alone.  The
    first is a hit, a miss, or a miss with one eviction.  A trace line
    whose operation character is [M] is replayed as exactly these two
    calls on the address [sscanf] leaves in [addr]. *)
Theorem immediate_reaccess_is_hit s b E sscanf_llx_u addr st :
  valid_config s b E → wf_cache s E (cache st) →
  ∃ st1 o1 st2,
    accessData s b E addr st = Some (st1, o1) ∧
    accessData s b E addr st1 = Some (st2, Vhit) ∧
    hit_count st2 = int_incr (hit_count st1) ∧
    miss_count st2 = miss_count st1 ∧
    eviction_count st2 = eviction_count st1 ∧
    match o1 with
    | Vhit =>
        hit_count st1 = int_incr (hit_count st) ∧
        miss_count st1 = miss_count st ∧
        eviction_count st1 = eviction_count st
    | Vmiss =>
        hit_count st1 = hit_count st ∧
        miss_count st1 = int_incr (miss_count st) ∧
        eviction_count st1 = eviction_count st
    | Vmiss_eviction =>
        hit_count st1 = hit_count st ∧
        miss_count st1 = int_incr (miss_count st) ∧
        eviction_count st1 = int_incr (eviction_count st)
    end ∧
    ∀ chunk rest buf addr0,
      char_at (fgets_store chunk buf) 1 = "M"%char →
      scanned_addr addr0
        (sscanf_llx_u (cstring (drop 3 (fgets_store chunk buf)))) = addr →
      replayTrace_loop s b E sscanf_llx_u (chunk :: rest) buf addr0 st
      = replayTrace_loop s b E sscanf_llx_u rest (fgets_store chunk buf)
          addr st2.
Proof.
  intros Hcfg Hwf.
  destruct (accessData_twice s b E addr st Hcfg Hwf)
    as (st1 & o1 & st2 & Hacc1 & Hacc2 & Hst1 & Hst2).
  exists st1, o1, st2.
  split_and!; [done | done | by rewrite Hst2 | by rewrite Hst2
              | by rewrite Hst2 | |].
  - rewrite Hst1. by destruct o1.
  - intros chunk rest buf addr0 Hop Haddr.
    cbn [replayTrace_loop]. cbn zeta. rewrite Hop, Haddr.
    change (is_LSM "M") with true. cbn iota.
    rewrite Hacc1. simpl. rewrite Hacc2. done.
Qed.

Lemma immediate_reaccess_is_hit_witness :
  let st := mkState [[mkLine 1 5 7]; [line0]] 0 2 0 in
  ∃ st1 o1 st2,
    accessData 1 1 1 36 st = Some (st1, o1) ∧
    accessData 1 1 1 36 st1 = Some (st2, Vhit) ∧
    hit_count st2 = int_incr (hit_count st1) ∧
    miss_count st2 = miss_count st1 ∧
    eviction_count st2 = eviction_count st1 ∧
    match o1 with
    | Vhit =>
        hit_count st1 = int_incr (hit_count st) ∧
        miss_count st1 = miss_count st ∧
        eviction_count st1 = eviction_count st
    | Vmiss =>
        hit_count st1 = hit_count st ∧
        miss_count st1 = int_incr (miss_count st) ∧
        eviction_count st1 = eviction_count st
    | Vmiss_eviction =>
        hit_count st1 = hit_count st ∧
        miss_count st1 = int_incr (miss_count st) ∧
        eviction_count st1 = int_incr (eviction_count st)
    end ∧
    ∀ chunk rest buf addr0,
      char_at (fgets_store chunk buf) 1 = "M"%char →
      scanned_addr addr0
        (sscanf_model (cstring (drop 3 (fgets_store chunk buf)))) = 36 →
      replayTrace_loop 1 1 1 sscanf_model (chunk :: rest) buf addr0 st
      = replayTrace_loop 1 1 1 sscanf_model rest (fgets_store chunk buf)
          36 st2.
Proof.
  intros st. apply immediate_reaccess_is_hit.
  - unfold valid_config, INT_MAX. lia.
  - split; [reflexivity | repeat constructor].
Defined.

(** ** C5: the accounting identity *)

(** C5, as stated, fails: the line [ L zz,1] is malformed in the sense of
    the specification (its address does not parse) and so should count
    for nothing, but the replay loop does not look at what [sscanf]
    returns and simulates an access for it. *)
Lemma accounting_counts_unparsed_line :
  let file := [text_line " L zz,1"] in
  spec_record_kind sscanf_model (text_line " L zz,1") = Malformed ∧
  ∃ st,
    replayTrace 1 1 1 sscanf_model file zero_buf (init_state 1 1) = Some st ∧
    hit_count st + miss_count st = 1 ∧
    hit_count st + miss_count st ≠ spec_accesses sscanf_model file.
Proof.
  split; [reflexivity |].
  eexists. split; [vm_compute; reflexivity |].
  split; [reflexivity | vm_compute; congruence].
Qed.

(** C5, amended: started from the initial state on a trace of non-empty
    lines, the replay runs to the end and [hit_count + miss_count] is the
    number of lines whose character at offset 1 is [L] or [S] plus twice
    the number of lines whose character at offset 1 is [M], whether or
    not their address parses; every other line counts for nothing.  The
    total is assumed to fit in an [int]. *)
Theorem hits_plus_misses_count_accesses s b E sscanf_llx_u file buf0 :
  valid_config s b E →
  Forall (λ chunk, chunk ≠ []) file →
  trace_accesses file ≤ INT_MAX →
  ∃ st,
    replayTrace s b E sscanf_llx_u file buf0 (init_state s E) = Some st ∧
    hit_count st + miss_count st = trace_accesses file.
Proof.
  intros Hcfg Hfile Hsum.
  destruct (replayTrace_loop_counts s b E sscanf_llx_u file Hcfg Hfile
              buf0 0 (init_state s E) (wf_cache_init s E)
              ltac:(done) ltac:(done) ltac:(simpl; lia))
    as (st & Hrun & Hcount).
  exists st. split; [done |]. simpl in Hcount. lia.
Qed.

Lemma hits_plus_misses_count_accesses_witness :
  let file := map text_line [" L 10,1"; " M 20,4"; "I 0400d7d4,8";
                             " S 18,8"; " L zz,1"; "garbage"] in
  ∃ st,
    replayTrace 4 4 2 sscanf_model file zero_buf (init_state 4 2) = Some st ∧
    hit_count st + miss_count st = trace_accesses file.
Proof.
  intros file. apply hits_plus_misses_count_accesses.
  - unfold valid_config, INT_MAX. lia.
  - repeat constructor; done.
  - vm_compute. congruence.
Defined.

(** ** C6: a tag occupies at most one line of a set *)

(** C6: starting from the grid [initCache] builds, every sequence of
    accesses runs to the end and leaves a grid in which no set has two
    lines in use with the same tag. *)
Theorem tags_stay_distinct s b E addrs :
  valid_config s b E →
  ∃ st, accessData_seq s b E addrs (init_state s E) = Some st ∧
        Forall distinct_tags (cache st).
Proof.
  intros Hcfg.
  destruct (accessData_seq_invariant s b E addrs Hcfg (init_state s E)
              (wf_cache_init s E) (distinct_tags_init s E))
    as (st & Hseq & _ & Hd).
  by exists st.
Qed.

Lemma tags_stay_distinct_witness :
  ∃ st, accessData_seq 1 1 2 [0; 4; 8; 4; 2; 12] (init_state 1 2) = Some st ∧
        Forall distinct_tags (cache st).
Proof.
  apply tags_stay_distinct. unfold valid_config, INT_MAX. lia.
Defined.

(** ** C7: lines that are not replayed *)

(** C7, as stated, fails: the line [ M q,1] is malformed in the sense of
    the specification (its address does not parse), yet the replay loop
    simulates two accesses for it, on the address left in [addr] (0 at
    the start): the counters and the grid change. *)
Lemma unparsed_modify_line_is_replayed :
  spec_record_kind sscanf_model (text_line " M q,1") = Malformed ∧
  replayTrace 1 1 1 sscanf_model [text_line " M q,1"] zero_buf
    (init_state 1 1)
  = Some (mkState [[mkLine 1 0 0]; [line0]] 1 1 0) ∧
  mkState [[mkLine 1 0 0]; [line0]] 1 1 0 ≠ init_state 1 1.
Proof.
  split; [reflexivity |].
  split; [vm_compute; reflexivity | vm_compute; congruence].
Qed.

(** C7, amended: a line whose character at offset 1 is none of [S], [L],
    [M] is skipped: no access is simulated for it, the counters, the grid
    and [addr] stay as they are, and the loop goes on with the next line;
    a trace made of such lines only leaves the state untouched.  A line
    whose character at offset 1 is [S], [L] or [M] is never skipped,
    whatever [sscanf] makes of its text: one access, two for [M], is made
    on the value [sscanf] leaves in [addr] (the address it converted,
    also when the length did not convert, and the value held before the
    line when it converted nothing), and the loop goes on with that value
    in [addr]; on a well-formed grid these accesses return and add 1 (2
    for [M]) to [hit_count + miss_count]. *)
Theorem unrecognised_line_is_skipped s b E sscanf_llx_u :
  (∀ chunk rest buf addr st,
     chunk ≠ [] → is_LSM (char_at chunk 1) = false →
     replayTrace_loop s b E sscanf_llx_u (chunk :: rest) buf addr st
     = replayTrace_loop s b E sscanf_llx_u rest (fgets_store chunk buf)
         addr st) ∧
  (∀ file buf0 st,
     Forall (λ chunk, chunk ≠ [] ∧ is_LSM (char_at chunk 1) = false) file →
     replayTrace s b E sscanf_llx_u file buf0 st = Some st) ∧
  (∀ chunk rest buf addr st a,
     chunk ≠ [] → is_LSM (char_at chunk 1) = true →
     a = match sscanf_llx_u (cstring (drop 3 (fgets_store chunk buf))) with
         | NoItem => addr
         | AddrOnly x => x
         | AddrLen x _ => x
         end →
     replayTrace_loop s b E sscanf_llx_u (chunk :: rest) buf addr st
     = accessData_seq s b E
         (if Ascii.eqb (char_at chunk 1) "M" then [a; a] else [a]) st
       ≫= replayTrace_loop s b E sscanf_llx_u rest (fgets_store chunk buf)
            a) ∧
  (∀ op a st,
     valid_config s b E → wf_cache s E (cache st) →
     0 ≤ hit_count st → 0 ≤ miss_count st →
     hit_count st + miss_count st + 1 < INT_MAX →
     ∃ st',
       accessData_seq s b E (if Ascii.eqb op "M" then [a; a] else [a]) st
       = Some st' ∧
       hit_count st' + miss_count st'
       = hit_count st + miss_count st + (if Ascii.eqb op "M" then 2 else 1)).
Proof.
  assert (Hstep : ∀ chunk rest buf addr st,
     chunk ≠ [] → is_LSM (char_at chunk 1) = false →
     replayTrace_loop s b E sscanf_llx_u (chunk :: rest) buf addr st
     = replayTrace_loop s b E sscanf_llx_u rest (fgets_store chunk buf)
         addr st).
  { intros chunk rest buf addr st Hne Hop. cbn [replayTrace_loop]. cbn zeta.
    by rewrite char_at_fgets_store, Hop by done. }
  split_and!; [done | | |].
  - intros file buf0 st Hfile. unfold replayTrace. generalize 0 as addr.
    revert buf0. induction Hfile as [| chunk rest [Hne Hop] _ IH];
      intros buf addr; [done |].
    rewrite Hstep by done. apply IH.
  - intros chunk rest buf addr st a Hne Hop Ha.
    cbn [replayTrace_loop]. cbn zeta.
    rewrite char_at_fgets_store, Hop by done.
    assert (Hsc : scanned_addr addr
                    (sscanf_llx_u (cstring (drop 3 (fgets_store chunk buf))))
                  = a).
    { rewrite Ha. by destruct (sscanf_llx_u _). }
    rewrite Hsc.
    destruct (Ascii.eqb (char_at chunk 1) "M"); cbn [accessData_seq];
      destruct (accessData s b E a st) as [[st1 o1] |]; simpl; try done;
      by destruct (accessData s b E a st1) as [[st2 o2] |].
  - intros op a st Hcfg Hwf Hh Hm Hsum.
    destruct (accessData_counts s b E a st Hcfg Hwf Hh Hm ltac:(lia))
      as (st1 & o1 & Hacc1 & Hwf1 & Hh1 & Hm1 & Hsum1).
    destruct (Ascii.eqb op "M"); cbn [accessData_seq]; rewrite Hacc1; simpl.
    + destruct (accessData_counts s b E a st1 Hcfg Hwf1 Hh1 Hm1 ltac:(lia))
        as (st2 & o2 & Hacc2 & _ & _ & _ & Hsum2).
      rewrite Hacc2. simpl. exists st2. split; [done | lia].
    + exists st1. split; [done | lia].
Qed.

Lemma unrecognised_line_is_skipped_witness :
  let st := mkState [[mkLine 1 5 7]; [line0]] 4 2 1 in
  replayTrace_loop 1 1 1 sscanf_model
    [text_line "I 0400d7d4,8"; text_line " L 10,1"] zero_buf 0 st
  = replayTrace_loop 1 1 1 sscanf_model [text_line " L 10,1"]
      (fgets_store (text_line "I 0400d7d4,8") zero_buf) 0 st
  ∧ replayTrace 1 1 1 sscanf_model
      [text_line "I 0400d7d4,8"; text_line " X 10,1"; text_line "=="]
      zero_buf st
    = Some st
  ∧ replayTrace_loop 1 1 1 sscanf_model
      [text_line " L 10"; text_line " M zz,1"] zero_buf 20 st
    = accessData_seq 1 1 1 [16] st
      ≫= replayTrace_loop 1 1 1 sscanf_model [text_line " M zz,1"]
           (fgets_store (text_line " L 10") zero_buf) 16
  ∧ ∃ st',
      accessData_seq 1 1 1 [16; 16] st = Some st' ∧
      hit_count st' + miss_count st' = hit_count st + miss_count st + 2.
Proof.
  intros st. split_and!.
  - apply (proj1 (unrecognised_line_is_skipped 1 1 1 sscanf_model));
      [done | reflexivity].
  - apply (proj1 (proj2 (unrecognised_line_is_skipped 1 1 1 sscanf_model))).
    repeat constructor; done.
  - apply (proj1 (proj2 (proj2
             (unrecognised_line_is_skipped 1 1 1 sscanf_model)))
             (text_line " L 10") _ zero_buf 20 st 16);
      [done | reflexivity | reflexivity].
  - apply (proj2 (proj2 (proj2
             (unrecognised_line_is_skipped 1 1 1 sscanf_model)))
             "M"%char 16 st).
    + unfold valid_config, INT_MAX. lia.
    + split; [reflexivity | repeat constructor].
    + simpl. lia.
    + simpl. lia.
    + unfold INT_MAX. simpl. lia.
Defined.

(** ** C8: the check of the command line *)

(** C8, as stated, fails: negative values are not checked.  With
    [E = -1], [s = -1] or [b = -1] and a trace file named (here one
    instruction line), [main] initialises the cache, replays the trace
    and prints the summary. *)
Lemma negative_configuration_is_run :
  let trace := Some [text_line "I 0400d7d4,8"] in
  main 1 1 (-1) sscanf_model trace zero_buf = Exit 0 [Summary 0 0 0] ∧
  main (-1) 1 1 sscanf_model trace zero_buf = Exit 0 [Summary 0 0 0] ∧
  main 1 (-1) 1 sscanf_model trace zero_buf = Exit 0 [Summary 0 0 0].
Proof. split_and!; reflexivity. Qed.

(** C8, amended: when [s], [E] or [b] is 0, or no trace file is named,
    [main] does not initialise the cache or replay anything: it prints
    the missing-argument message and the usage text and exits, and no
    summary line is printed. *)
Theorem missing_argument_is_refused s b E sscanf_llx_u trace_file buf0 :
  s = 0 ∨ E = 0 ∨ b = 0 ∨ trace_file = None →
  ∃ status,
    main s b E sscanf_llx_u trace_file buf0
    = Exit status [MissingArgument; UsageText].
Proof.
  intros Hbad. exists 0. unfold main.
  assert (Hguard : (s =? 0) || (E =? 0) || (b =? 0)
                   || bool_decide (trace_file = None) = true).
  { destruct Hbad as [-> | [-> | [-> | ->]]]; simpl;
      rewrite ?orb_true_r; done. }
  by rewrite Hguard.
Qed.

Lemma missing_argument_is_refused_witness :
  ∃ status,
    main 4 0 1 sscanf_model (Some [text_line " L 10,1"]) zero_buf
    = Exit status [MissingArgument; UsageText].
Proof. apply missing_argument_is_refused. right. right. left. reflexivity. Defined.

(** ** C9: the end-to-end example *)

(** C9: with [s = 1], [b = 0], [E = 1], the addresses 0, 2 and 4 decode
    to set index 0 with tags 0, 1 and 2, and replaying the three Load
    lines from the initial state ends with 0 hits, 3 misses and 2
    evictions. *)
Theorem three_loads_direct_mapped :
  decode 1 0 0 = Some (0, 0) ∧
  decode 1 0 2 = Some (1, 0) ∧
  decode 1 0 4 = Some (2, 0) ∧
  ∀ buf0, ∃ st,
    replayTrace 1 0 1 sscanf_model
      [text_line " L 0,1"; text_line " L 2,1"; text_line " L 4,1"] buf0
      (init_state 1 1)
    = Some st ∧
    hit_count st = 0 ∧ miss_count st = 3 ∧ eviction_count st = 2.
Proof.
  split_and!; [reflexivity | reflexivity | reflexivity |].
  intros buf0. eexists. split; [vm_compute; reflexivity |].
  split_and!; reflexivity.
Qed.

(** ** C10: an access touches one set only *)

(** C10: on a well-formed grid, [accessData] returns, and every set other
    than the one selected by the decoded set index is, line for line and
    field for field, what it was before the call; the number of sets is
    unchanged. *)
Theorem accessData_other_sets_unchanged s b E addr st :
  valid_config s b E → wf_cache s E (cache st) →
  ∃ tg setIndex st' o,
    decode s b addr = Some (tg, setIndex) ∧
    accessData s b E addr st = Some (st', o) ∧
    length (cache st') = length (cache st) ∧
    ∀ k, k ≠ Z.to_nat setIndex → cache st' !! k = cache st !! k.
Proof.
  intros Hcfg Hwf.
  destruct (accessData_step s b E addr st Hcfg Hwf)
    as (tg & si & set & set' & o & Hdec & Hsi & Hset & Hlen & Hstep & Hacc).
  exists tg, si, (counted o (<[Z.to_nat si := set']> (cache st)) st), o.
  split_and!; [done | done | |].
  - destruct o; simpl; apply length_insert.
  - intros k Hk. destruct o; simpl; by apply list_lookup_insert_ne.
Qed.

Lemma accessData_other_sets_unchanged_witness :
  let st := mkState [[mkLine 1 0 4]; [mkLine 1 7 2]] 3 2 1 in
  ∃ tg setIndex st' o,
    decode 1 1 6 = Some (tg, setIndex) ∧
    accessData 1 1 1 6 st = Some (st', o) ∧
    length (cache st') = length (cache st) ∧
    ∀ k, k ≠ Z.to_nat setIndex → cache st' !! k = cache st !! k.
Proof.
  intros st. apply accessData_other_sets_unchanged.
  - unfold valid_config, INT_MAX. lia.
  - split; [reflexivity | repeat constructor].
Defined.

(** ** Further runs of the model *)

(** The same trace with two lines per set (the second end-to-end example
    of the specification): the third load evicts the line of the first. *)
Example three_loads_two_way :
  replayTrace 1 0 2 sscanf_model
    [text_line " L 0,1"; text_line " L 2,1"; text_line " L 4,1"] zero_buf
    (init_state 1 2)
  = Some (mkState [[mkLine 1 2 0; mkLine 1 1 1]; [line0; line0]] 0 3 1).
Proof. reflexivity. Qed.

(** The operation character is read at offset 1: the same three records
    written from offset 0 are not replayed. *)
Example loads_at_offset_zero_are_skipped :
  replayTrace 1 0 1 sscanf_model
    [text_line "L 0,1"; text_line "L 2,1"; text_line "L 4,1"] zero_buf
    (init_state 1 1)
  = Some (init_state 1 1).
Proof. reflexivity. Qed.

(** Through [main] the configuration of the example is refused, since
    [b] is 0; the status [printUsage] exits with is 0. *)
Example example_configuration_through_main :
  main 1 0 1 sscanf_model
    (Some [text_line " L 0,1"; text_line " L 2,1"; text_line " L 4,1"])
    zero_buf
  = Exit 0 [MissingArgument; UsageText].
Proof. reflexivity. Qed.

(** ** Address decoding: bounds and blocks *)

Lemma decode_parts s b addr :
  0 ≤ s → 0 ≤ b →
  Z.shiftr addr (s + b) = Z.shiftr addr b / 2 ^ s ∧
  Z.shiftr addr b = Z.shiftr addr (s + b) * 2 ^ s + Z.shiftr addr b mod 2 ^ s.
Proof.
  intros Hs Hb.
  assert (Hp : 0 < 2 ^ s) by (apply Z.pow_pos_nonneg; lia).
  assert (Hdiv : Z.shiftr addr (s + b) = Z.shiftr addr b / 2 ^ s).
  { rewrite !Z.shiftr_div_pow2 by lia.
    rewrite Z.pow_add_r by lia.
    rewrite (Z.mul_comm (2 ^ s)), Z.div_div; [done | | lia].
    pose proof (Z.pow_pos_nonneg 2 b). lia. }
  split; [done |]. rewrite Hdiv.
  pose proof (Z.div_mod (Z.shiftr addr b) (2 ^ s)). lia.
Qed.

(** X1: the decoded set index is an index of the grid, the tag fits the
    remaining address bits, and tag, set index and block offset put
    together give the address back. *)
Theorem decode_reconstructs_address s b addr :
  0 ≤ s ≤ 30 → 0 ≤ b → s + b ≤ 63 → 0 ≤ addr < 2 ^ 64 →
  ∃ tg setIndex,
    decode s b addr = Some (tg, setIndex) ∧
    0 ≤ setIndex < 2 ^ s ∧
    0 ≤ tg < 2 ^ (64 - (s + b)) ∧
    addr = (tg * 2 ^ s + setIndex) * 2 ^ b + addr mod 2 ^ b.
Proof.
  intros Hs Hb Hsb Haddr.
  exists (Z.shiftr addr (s + b)), (Z.shiftr addr b mod 2 ^ s).
  assert (Hps : 0 < 2 ^ s) by (apply Z.pow_pos_nonneg; lia).
  assert (Hpb : 0 < 2 ^ b) by (apply Z.pow_pos_nonneg; lia).
  destruct (decode_parts s b addr ltac:(lia) Hb) as [_ Hsplit].
  split_and!.
  - apply (decode_defined s b 1). unfold valid_config, INT_MAX. lia.
  - apply Z.mod_pos_bound. lia.
  - apply Z.mod_pos_bound. lia.
  - apply Z.shiftr_nonneg. lia.
  - rewrite Z.shiftr_div_pow2 by lia.
    apply Z.div_lt_upper_bound; [apply Z.pow_pos_nonneg; lia |].
    rewrite <- Z.pow_add_r by lia.
    replace (s + b + (64 - (s + b))) with 64 by lia. lia.
  - rewrite <- Hsplit. rewrite Z.shiftr_div_pow2 by lia.
    pose proof (Z.div_mod addr (2 ^ b)). lia.
Qed.

Lemma decode_reconstructs_address_witness :
  ∃ tg setIndex,
    decode 4 4 8384512 = Some (tg, setIndex) ∧
    0 ≤ setIndex < 2 ^ 4 ∧
    0 ≤ tg < 2 ^ (64 - (4 + 4)) ∧
    8384512 = (tg * 2 ^ 4 + setIndex) * 2 ^ 4 + 8384512 mod 2 ^ 4.
Proof. apply decode_reconstructs_address; lia. Defined.

(** X2: two addresses decode to the same tag and set index exactly when
    they lie in the same block, that is when they agree above the [b]
    block-offset bits. *)
Theorem decode_same_block s b addr1 addr2 :
  0 ≤ s ≤ 30 → 0 ≤ b → s + b ≤ 63 →
  decode s b addr1 = decode s b addr2
  ↔ Z.shiftr addr1 b = Z.shiftr addr2 b.
Proof.
  intros Hs Hb Hsb.
  assert (Hcfg : valid_config s b 1) by (unfold valid_config, INT_MAX; lia).
  rewrite !(decode_defined s b 1) by done.
  destruct (decode_parts s b addr1 ltac:(lia) Hb) as [Hd1 Hs1].
  destruct (decode_parts s b addr2 ltac:(lia) Hb) as [Hd2 Hs2].
  split.
  - intros Heq. injection Heq as Htag Hidx. lia.
  - intros Heq. rewrite Hd1, Hd2, Heq. done.
Qed.

Lemma decode_same_block_witness :
  decode 4 4 8384512 = decode 4 4 8384527
  ↔ Z.shiftr 8384512 4 = Z.shiftr 8384527 4.
Proof. apply decode_same_block; lia. Defined.

(** ** The lines of the set after one access *)

Lemma access_step_lines E tg set set' o :
  length set = Z.to_nat E →
  access_step E tg set set' o →
  ∃ t, 0 ≤ t < E ∧ chosen E tg set o t ∧
       ∀ j, 0 ≤ j < E →
         set_line set' j
         = touch_line t j (if j =? t then install o tg (set_line set j)
                           else set_line set j).
Proof.
  intros Hlen Hstep.
  destruct Hstep as [h Hh Hhold Hfirst
                    | e Hnone He Hinv Hbefore
                    | lv Hnone Hall Hlru Hv].
  - exists h. split; [lia |]. split; [by split |].
    intros j Hj. rewrite set_line_touch by done.
    by destruct (j =? h).
  - exists e. split; [lia |]. split; [by repeat split |].
    intros j Hj. rewrite set_line_touch by (by rewrite ?length_zalter).
    rewrite !set_line_zalter by (rewrite ?length_zalter; lia).
    by destruct (j =? e).
  - exists (lru_index lv). split; [lia |].
    split; [split; [done | split; [done | by exists lv]] |].
    intros j Hj. rewrite set_line_touch by (by rewrite ?length_zalter).
    rewrite !set_line_zalter by (rewrite ?length_zalter; lia).
    by destruct (j =? lru_index lv).
Qed.

Lemma line_at_insert_ne (c : cache_t) si (set' : cache_set_t) k i :
  k ≠ si → 0 ≤ si →
  line_at (<[Z.to_nat si := set']> c) k i = line_at c k i.
Proof.
  intros Hne Hsi. unfold line_at, zlookup.
  destruct (Z.ltb_spec k 0); [done |].
  by rewrite list_lookup_insert_ne by lia.
Qed.

(** One access, line by line: the outcome, the chosen line [t] of the
    decoded set, and every line of the grid afterwards. *)
Lemma accessData_lines s b E addr st :
  valid_config s b E → wf_cache s E (cache st) →
  ∃ tg si set st' o t,
    decode s b addr = Some (tg, si) ∧ 0 ≤ si < 2 ^ s ∧
    cache st !! Z.to_nat si = Some set ∧ length set = Z.to_nat E ∧
    accessData s b E addr st = Some (st', o) ∧
    st' = counted o (cache st') st ∧
    wf_cache s E (cache st') ∧
    0 ≤ t < E ∧ chosen E tg set o t ∧
    (∀ j, line_at (cache st) si j = set_line set j) ∧
    (∀ j, 0 ≤ j < E →
       line_at (cache st') si j
       = touch_line t j (if j =? t then install o tg (set_line set j)
                         else set_line set j)) ∧
    (∀ k j, k ≠ si → line_at (cache st') k j = line_at (cache st) k j).
Proof.
  intros Hcfg Hwf.
  destruct (accessData_step s b E addr st Hcfg Hwf)
    as (tg & si & set & set' & o & Hdec & Hsi & Hset & Hlen & Hstep & Hacc).
  destruct (access_step_lines _ _ _ _ _ Hlen Hstep) as (t & Ht & Hch & Hlines).
  assert (Hk : (Z.to_nat si < length (cache st))%nat)
    by (by eapply lookup_lt_Some).
  exists tg, si, set, (counted o (<[Z.to_nat si := set']> (cache st)) st), o, t.
  rewrite !cache_counted.
  split_and!; try done; try lia.
  - apply wf_cache_insert; [done |].
    by rewrite (access_step_length _ _ _ _ _ Hstep).
  - intros j. apply line_at_set; [lia | done].
  - intros j Hj. rewrite line_at_insert by (lia || done). by apply Hlines.
  - intros k j Hne. apply line_at_insert_ne; [done | lia].
Qed.

Lemma set_line_outside (set : cache_set_t) j :
  ¬ (0 ≤ j < Z.of_nat (length set)) → set_line set j = line0.
Proof.
  intros Hj. unfold set_line, zlookup.
  destruct (Z.ltb_spec j 0); [done |].
  by rewrite lookup_ge_None_2 by lia.
Qed.

Lemma is_valid_install_touch o tg t j l :
  is_valid l = true →
  is_valid (touch_line t j (if j =? t then install o tg l else l)) = true.
Proof.
  intros Hl. rewrite is_valid_touch_line.
  destruct (j =? t); [| done]. by destruct o.
Qed.

(** ** Properties of one access *)

(** X3: what decides the outcome of an access.  It is a hit exactly when
    some line in use of the decoded set holds the tag; otherwise it is a
    plain miss exactly when some line of the set is not in use, and a
    miss with eviction exactly when every line is in use. *)
Theorem access_outcome_decided_by_set s b E addr st tg setIndex :
  valid_config s b E → wf_cache s E (cache st) →
  decode s b addr = Some (tg, setIndex) →
  ∃ st' o,
    accessData s b E addr st = Some (st', o) ∧
    (o = Vhit ↔
     ∃ j, 0 ≤ j < E ∧ is_valid (line_at (cache st) setIndex j) = true ∧
          tag (line_at (cache st) setIndex j) = tg) ∧
    (o = Vmiss ↔
     (∀ j, 0 ≤ j < E → is_valid (line_at (cache st) setIndex j) = true →
           tag (line_at (cache st) setIndex j) ≠ tg) ∧
     ∃ j, 0 ≤ j < E ∧ is_valid (line_at (cache st) setIndex j) = false) ∧
    (o = Vmiss_eviction ↔
     (∀ j, 0 ≤ j < E → tag (line_at (cache st) setIndex j) ≠ tg) ∧
     ∀ j, 0 ≤ j < E → is_valid (line_at (cache st) setIndex j) = true).
Proof.
  intros Hcfg Hwf Hdec.
  destruct (accessData_lines s b E addr st Hcfg Hwf)
    as (tg' & si & set & st' & o & t & Hdec' & Hsi & Hset & Hlen & Hacc & _
        & _ & Ht & Hch & Hold & _).
  rewrite Hdec in Hdec'. injection Hdec' as <- <-.
  exists st', o. split; [done |].
  setoid_rewrite Hold. unfold chosen, holds in Hch.
  destruct o.
  - destruct Hch as [[Hv Htag] _]. split_and!.
    + split; [intros _; by exists t | done].
    + split; [done |]. intros [Hnone _]. by destruct (Hnone t Ht Hv).
    + split; [done |]. intros [Hnone _]. by destruct (Hnone t Ht).
  - destruct Hch as (Hnone & Hinv & _). split_and!.
    + split; [done |]. intros (j & Hj & Hv & Htag). by destruct (Hnone j Hj).
    + split; [| done]. intros _. split; [| by exists t].
      intros j Hj Hv Htag. by destruct (Hnone j Hj).
    + split; [done |]. intros [_ Hall]. rewrite Hall in Hinv by done. done.
  - destruct Hch as (Hnone & Hall & _). split_and!.
    + split; [done |]. intros (j & Hj & Hv & Htag). by destruct (Hnone j Hj).
    + split; [done |]. intros [_ (j & Hj & Hinv)].
      rewrite Hall in Hinv by done. done.
    + split; [| done]. intros _. split; [| done].
      intros j Hj Htag. destruct (Hnone j Hj). split; [by apply Hall | done].
Qed.

Lemma access_outcome_decided_by_set_witness :
  let st := mkState [[mkLine 1 5 7; mkLine 0 0 0]; [line0; line0]] 0 1 0 in
  ∃ st' o,
    accessData 1 1 2 36 st = Some (st', o) ∧
    (o = Vhit ↔
     ∃ j, 0 ≤ j < 2 ∧ is_valid (line_at (cache st) 0 j) = true ∧
          tag (line_at (cache st) 0 j) = 9) ∧
    (o = Vmiss ↔
     (∀ j, 0 ≤ j < 2 → is_valid (line_at (cache st) 0 j) = true →
           tag (line_at (cache st) 0 j) ≠ 9) ∧
     ∃ j, 0 ≤ j < 2 ∧ is_valid (line_at (cache st) 0 j) = false) ∧
    (o = Vmiss_eviction ↔
     (∀ j, 0 ≤ j < 2 → tag (line_at (cache st) 0 j) ≠ 9) ∧
     ∀ j, 0 ≤ j < 2 → is_valid (line_at (cache st) 0 j) = true).
Proof.
  intros st. apply access_outcome_decided_by_set.
  - unfold valid_config, INT_MAX. lia.
  - split; [reflexivity | repeat constructor].
  - reflexivity.
Defined.

(** X4: an access keeps the shape of the grid and never takes a line out
    of use: every line that was in use before the call is in use after
    it, in every set. *)
Theorem access_keeps_lines_in_use s b E addr st :
  valid_config s b E → wf_cache s E (cache st) →
  ∃ st' o,
    accessData s b E addr st = Some (st', o) ∧
    wf_cache s E (cache st') ∧
    ∀ k j, is_valid (line_at (cache st) k j) = true →
           is_valid (line_at (cache st') k j) = true.
Proof.
  intros Hcfg Hwf.
  destruct (accessData_lines s b E addr st Hcfg Hwf)
    as (tg & si & set & st' & o & t & Hdec & Hsi & Hset & Hlen & Hacc & _
        & Hwf' & Ht & Hch & Hold & Hnew & Hother).
  exists st', o. split_and!; [done | done |].
  intros k j Hv. destruct (decide (k = si)) as [-> | Hne].
  - rewrite Hold in Hv.
    destruct (decide (0 ≤ j < E)) as [Hj | Hj].
    + rewrite Hnew by done. by apply is_valid_install_touch.
    + rewrite set_line_outside in Hv by lia. done.
  - by rewrite Hother.
Qed.

Lemma access_keeps_lines_in_use_witness :
  let st := mkState [[mkLine 1 5 7; mkLine 1 6 2]; [line0; line0]] 0 2 0 in
  ∃ st' o,
    accessData 1 1 2 36 st = Some (st', o) ∧
    wf_cache 1 2 (cache st') ∧
    ∀ k j, is_valid (line_at (cache st) k j) = true →
           is_valid (line_at (cache st') k j) = true.
Proof.
  intros st. apply access_keeps_lines_in_use.
  - unfold valid_config, INT_MAX. lia.
  - split; [reflexivity | repeat constructor].
Defined.

Lemma line_at_initCache s E k j : line_at (initCache s E) k j = line0.
Proof.
  unfold line_at, initCache, zlookup.
  destruct (k <? 0); [done |].
  destruct (replicate _ _ !! Z.to_nat k) as [set |] eqn:Hset; [| done].
  apply lookup_replicate in Hset as [-> _]. simpl.
  destruct (j <? 0); [done |].
  destruct (replicate _ _ !! Z.to_nat j) as [l |] eqn:Hl; [| done].
  by apply lookup_replicate in Hl as [-> _].
Qed.

(** X5: the first access to the grid [initCache] builds is a miss without
    eviction that fills line 0 of the decoded set with the tag and
    counter 0; every other line stays as [initCache] left it, and the
    counters read 0 hits, 1 miss, 0 evictions. *)
Theorem first_access_is_cold_miss s b E addr :
  valid_config s b E →
  ∃ tg setIndex st',
    decode s b addr = Some (tg, setIndex) ∧
    accessData s b E addr (init_state s E) = Some (st', Vmiss) ∧
    line_at (cache st') setIndex 0 = mkLine 1 tg 0 ∧
    (∀ j, 0 < j < E → line_at (cache st') setIndex j = line0) ∧
    (∀ k j, k ≠ setIndex → line_at (cache st') k j = line0) ∧
    hit_count st' = 0 ∧ miss_count st' = 1 ∧ eviction_count st' = 0.
Proof.
  intros Hcfg. pose proof Hcfg as (_ & _ & _ & HE).
  destruct (accessData_lines s b E addr (init_state s E) Hcfg
              (wf_cache_init s E))
    as (tg & si & set & st' & o & t & Hdec & Hsi & Hset & Hlen & Hacc & Hcnt
        & _ & Ht & Hch & Hold & Hnew & Hother).
  assert (Hfresh : ∀ j, set_line set j = line0).
  { intros j. rewrite <- Hold. apply line_at_initCache. }
  unfold chosen, holds in Hch.
  destruct o.
  - destruct Hch as [[Hv _] _]. by rewrite Hfresh in Hv.
  - destruct Hch as (_ & _ & Hbefore).
    assert (t = 0) as ->.
    { destruct (decide (t = 0)) as [| Hne]; [done |].
      specialize (Hbefore 0 ltac:(lia)). by rewrite Hfresh in Hbefore. }
    exists tg, si, st'. split_and!; [done | done | | | | | |].
    + rewrite Hnew by lia. by rewrite Hfresh.
    + intros j Hj. rewrite Hnew by lia. rewrite Hfresh.
      unfold touch_line. by destruct (Z.eqb_spec j 0); [lia |].
    + intros k j Hne. rewrite Hother by done. apply line_at_initCache.
    + by rewrite Hcnt.
    + by rewrite Hcnt.
    + by rewrite Hcnt.
  - destruct Hch as (_ & Hall & _).
    specialize (Hall 0 ltac:(lia)). by rewrite Hfresh in Hall.
Qed.

Lemma first_access_is_cold_miss_witness :
  ∃ tg setIndex st',
    decode 4 4 8384512 = Some (tg, setIndex) ∧
    accessData 4 4 2 8384512 (init_state 4 2) = Some (st', Vmiss) ∧
    line_at (cache st') setIndex 0 = mkLine 1 tg 0 ∧
    (∀ j, 0 < j < 2 → line_at (cache st') setIndex j = line0) ∧
    (∀ k j, k ≠ setIndex → line_at (cache st') k j = line0) ∧
    hit_count st' = 0 ∧ miss_count st' = 1 ∧ eviction_count st' = 0.
Proof.
  apply first_access_is_cold_miss. unfold valid_config, INT_MAX. lia.
Defined.

(** X6: a hit changes recency counters only: the valid byte and the tag
    of every line of the grid, [miss_count] and [eviction_count] are what
    they were, and the line that holds the tag has counter 0. *)
Theorem hit_changes_counters_only s b E addr st st' tg setIndex :
  valid_config s b E → wf_cache s E (cache st) →
  decode s b addr = Some (tg, setIndex) →
  accessData s b E addr st = Some (st', Vhit) →
  (∀ k j, valid (line_at (cache st') k j) = valid (line_at (cache st) k j) ∧
          tag (line_at (cache st') k j) = tag (line_at (cache st) k j)) ∧
  (∃ h, 0 ≤ h < E ∧ is_valid (line_at (cache st') setIndex h) = true ∧
        tag (line_at (cache st') setIndex h) = tg ∧
        lru_counter (line_at (cache st') setIndex h) = 0) ∧
  miss_count st' = miss_count st ∧ eviction_count st' = eviction_count st.
Proof.
  intros Hcfg Hwf Hdec Hhit.
  destruct (accessData_lines s b E addr st Hcfg Hwf)
    as (tg' & si & set & st1 & o & t & Hdec' & Hsi & Hset & Hlen & Hacc & Hcnt
        & Hwf' & Ht & Hch & Hold & Hnew & Hother).
  rewrite Hdec in Hdec'. injection Hdec' as <- <-.
  rewrite Hhit in Hacc. injection Hacc as <- <-.
  destruct Hch as [[Hv Htag] _].
  split_and!.
  - intros k j. destruct (decide (k = setIndex)) as [-> | Hne];
      [| by rewrite Hother].
    destruct (decide (0 ≤ j < E)) as [Hj | Hj].
    + rewrite Hnew, Hold by done.
      replace (if j =? t then install Vhit tg (set_line set j)
               else set_line set j) with (set_line set j)
        by (by destruct (j =? t)).
      apply touch_line_fields.
    + destruct Hwf' as [Hlen' Hsets'].
      destruct (lookup_lt_is_Some_2 (cache st') (Z.to_nat setIndex))
        as [set' Hset']; [lia |].
      rewrite (line_at_set setIndex _ set') by (lia || done).
      rewrite Hold.
      rewrite !set_line_outside; [done | lia |].
      rewrite (proj1 (Forall_lookup _ _) Hsets' _ _ Hset'). lia.
  - exists t. rewrite Hnew by done. rewrite Z.eqb_refl. simpl.
    rewrite is_valid_touch_line, (proj2 (touch_line_fields _ _ _)).
    split_and!; [lia | lia | done | done |].
    unfold touch_line. by rewrite Z.eqb_refl.
  - by rewrite Hcnt.
  - by rewrite Hcnt.
Qed.

Lemma hit_changes_counters_only_witness :
  let st := mkState [[mkLine 1 5 7; mkLine 1 9 2]; [line0; line0]] 0 2 0 in
  let st' := mkState [[mkLine 1 5 8; mkLine 1 9 0]; [line0; line0]] 1 2 0 in
  (∀ k j, valid (line_at (cache st') k j) = valid (line_at (cache st) k j) ∧
          tag (line_at (cache st') k j) = tag (line_at (cache st) k j)) ∧
  (∃ h, 0 ≤ h < 2 ∧ is_valid (line_at (cache st') 0 h) = true ∧
        tag (line_at (cache st') 0 h) = 9 ∧
        lru_counter (line_at (cache st') 0 h) = 0) ∧
  miss_count st' = miss_count st ∧ eviction_count st' = eviction_count st.
Proof.
  intros st st'. apply (hit_changes_counters_only 1 1 2 36 st st' 9 0).
  - unfold valid_config, INT_MAX. lia.
  - split; [reflexivity | repeat constructor].
  - reflexivity.
  - reflexivity.
Defined.

(** X7: a miss without eviction fills the first line of the decoded set
    that is not in use: that line becomes in use with the tag and counter
    0, every line before it was in use, every other line of the set keeps
    its valid byte and tag, and [eviction_count] and [hit_count] stay. *)
Theorem placement_fills_first_free_line s b E addr st st' tg setIndex :
  valid_config s b E → wf_cache s E (cache st) →
  decode s b addr = Some (tg, setIndex) →
  accessData s b E addr st = Some (st', Vmiss) →
  ∃ e, 0 ≤ e < E ∧
       is_valid (line_at (cache st) setIndex e) = false ∧
       (∀ j, 0 ≤ j < e → is_valid (line_at (cache st) setIndex j) = true) ∧
       line_at (cache st') setIndex e = mkLine 1 tg 0 ∧
       (∀ j, 0 ≤ j < E → j ≠ e →
          valid (line_at (cache st') setIndex j)
          = valid (line_at (cache st) setIndex j) ∧
          tag (line_at (cache st') setIndex j)
          = tag (line_at (cache st) setIndex j)) ∧
       hit_count st' = hit_count st ∧
       eviction_count st' = eviction_count st.
Proof.
  intros Hcfg Hwf Hdec Hmiss.
  destruct (accessData_lines s b E addr st Hcfg Hwf)
    as (tg' & si & set & st1 & o & t & Hdec' & Hsi & Hset & Hlen & Hacc & Hcnt
        & Hwf' & Ht & Hch & Hold & Hnew & Hother).
  rewrite Hdec in Hdec'. injection Hdec' as <- <-.
  rewrite Hmiss in Hacc. injection Hacc as <- <-.
  destruct Hch as (_ & Hinv & Hbefore).
  exists t. setoid_rewrite Hold.
  split_and!; [lia | lia | done | done | | | by rewrite Hcnt | by rewrite Hcnt].
  - rewrite Hnew by done. rewrite Z.eqb_refl. unfold touch_line.
    by rewrite Z.eqb_refl.
  - intros j Hj Hne. rewrite Hnew by done.
    destruct (Z.eqb_spec j t); [done |]. apply touch_line_fields.
Qed.

Lemma placement_fills_first_free_line_witness :
  let st := mkState [[mkLine 1 5 7; mkLine 0 0 0]; [line0; line0]] 0 1 0 in
  let st' := mkState [[mkLine 1 5 8; mkLine 1 9 0]; [line0; line0]] 0 2 0 in
  ∃ e, 0 ≤ e < 2 ∧
       is_valid (line_at (cache st) 0 e) = false ∧
       (∀ j, 0 ≤ j < e → is_valid (line_at (cache st) 0 j) = true) ∧
       line_at (cache st') 0 e = mkLine 1 9 0 ∧
       (∀ j, 0 ≤ j < 2 → j ≠ e →
          valid (line_at (cache st') 0 j) = valid (line_at (cache st) 0 j) ∧
          tag (line_at (cache st') 0 j) = tag (line_at (cache st) 0 j)) ∧
       hit_count st' = hit_count st ∧
       eviction_count st' = eviction_count st.
Proof.
  intros st st'. apply (placement_fills_first_free_line 1 1 2 36 st st' 9 0).
  - unfold valid_config, INT_MAX. lia.
  - split; [reflexivity | repeat constructor].
  - reflexivity.
  - reflexivity.
Defined.

(** X8: spatial locality.  After an access to one address, an access to
    any address of the same block is a hit. *)
Theorem same_block_reaccess_is_hit s b E addr1 addr2 st :
  valid_config s b E → wf_cache s E (cache st) →
  Z.shiftr addr1 b = Z.shiftr addr2 b →
  ∃ st1 o1 st2,
    accessData s b E addr1 st = Some (st1, o1) ∧
    accessData s b E addr2 st1 = Some (st2, Vhit).
Proof.
  intros Hcfg Hwf Hblock.
  destruct (accessData_lines s b E addr1 st Hcfg Hwf)
    as (tg & si & set & st1 & o & t & Hdec & Hsi & Hset & Hlen & Hacc & _
        & Hwf1 & Ht & Hch & Hold & Hnew & _).
  destruct (accessData_lines s b E addr2 st1 Hcfg Hwf1)
    as (tg2 & si2 & set1 & st2 & o2 & t2 & Hdec2 & _ & _ & _ & Hacc2 & _
        & _ & Ht2 & Hch2 & Hold2 & _).
  assert (Hsame : decode s b addr2 = Some (tg, si)).
  { rewrite <- Hdec. rewrite !(decode_defined s b E) by done.
    pose proof Hcfg as (Hs & Hb & _).
    destruct (decode_parts s b addr1 ltac:(lia) Hb) as [Hd1 _].
    destruct (decode_parts s b addr2 ltac:(lia) Hb) as [Hd2 _].
    by rewrite Hd1, Hd2, Hblock. }
  rewrite Hsame in Hdec2. injection Hdec2 as <- <-.
  assert (Hholds : holds tg set1 t).
  { unfold holds. rewrite <- Hold2, Hnew by done. rewrite Z.eqb_refl.
    rewrite is_valid_touch_line, (proj2 (touch_line_fields _ _ _)).
    unfold chosen, holds in Hch. destruct o; simpl.
    - by destruct Hch as [Hhold _].
    - done.
    - destruct Hch as (_ & Hall & _). split; [by apply Hall | done]. }
  exists st1, o, st2. split; [done |].
  destruct o2; [done | ..]; unfold chosen in Hch2;
    destruct Hch2 as (Hnone & _); by destruct (Hnone t Ht).
Qed.

Lemma same_block_reaccess_is_hit_witness :
  let st := mkState [[mkLine 1 5 7]; [line0]] 0 2 0 in
  ∃ st1 o1 st2,
    accessData 1 4 1 8384512 st = Some (st1, o1) ∧
    accessData 1 4 1 8384527 st1 = Some (st2, Vhit).
Proof.
  intros st. apply same_block_reaccess_is_hit.
  - unfold valid_config, INT_MAX. lia.
  - split; [reflexivity | repeat constructor].
  - reflexivity.
Defined.

(** ** Recency counters in the states the program reaches *)

Lemma recency_ok_weaken n m set :
  n ≤ m → recency_ok n set → recency_ok m set.
Proof.
  intros Hnm (Hrange & Hfree & Hdist). split_and!; [| done | done].
  intros i Hi Hv. specialize (Hrange i Hi Hv). lia.
Qed.

Lemma recency_ok_init n E : 0 ≤ n → recency_ok n (replicate E line0).
Proof.
  intros Hn.
  assert (Hline : ∀ i, set_line (replicate E line0) i = line0).
  { intros i. unfold set_line, zlookup. destruct (i <? 0); [done |].
    destruct (replicate E line0 !! Z.to_nat i) as [l |] eqn:Hl; [| done].
    by apply lookup_replicate in Hl as [-> _]. }
  split_and!.
  - intros i _ Hv. by rewrite Hline in Hv.
  - intros i _ _. apply Hline.
  - intros i j _ _ Hv. by rewrite Hline in Hv.
Qed.

Lemma access_step_recency E tg set set' o n :
  length set = Z.to_nat E → 0 ≤ n < INT_MAX →
  access_step E tg set set' o →
  recency_ok n set → recency_ok (n + 1) set'.
Proof.
  intros Hlen Hn Hstep (Hrange & Hfree & Hdist).
  pose proof (access_step_length _ _ _ _ _ Hstep) as Hlen'.
  destruct (access_step_lines _ _ _ _ _ Hlen Hstep) as (t & Ht & Hch & Hlines).
  assert (Hchosen : is_valid (set_line set' t) = true ∧
                    lru_counter (set_line set' t) = 0).
  { rewrite Hlines by done. rewrite Z.eqb_refl, is_valid_touch_line.
    split; [| unfold touch_line; by rewrite Z.eqb_refl].
    unfold chosen, holds in Hch. destruct o; simpl.
    - by destruct Hch as [[Hv _] _].
    - done.
    - destruct Hch as (_ & Hall & _). by apply Hall. }
  assert (Hrest : ∀ j, 0 ≤ j < E → j ≠ t →
            is_valid (set_line set' j) = is_valid (set_line set j) ∧
            (is_valid (set_line set j) = true →
             lru_counter (set_line set' j) = lru_counter (set_line set j) + 1) ∧
            (is_valid (set_line set j) = false →
             set_line set' j = set_line set j)).
  { intros j Hj Hne. rewrite Hlines by done.
    destruct (Z.eqb_spec j t); [done |]. unfold touch_line.
    destruct (Z.eqb_spec j t); [done |].
    destruct (is_valid (set_line set j)) eqn:Hv; split_and!; try done.
    intros _. simpl. apply int_incr_small.
    specialize (Hrange j ltac:(lia) Hv). unfold INT_MIN. lia. }
  destruct Hchosen as [Hvt Hct].
  unfold recency_ok. rewrite Hlen'. split_and!.
  - intros i Hi Hv. destruct (decide (i = t)) as [-> | Hne]; [lia |].
    destruct (Hrest i ltac:(lia) Hne) as (Hval & Hcnt & _).
    rewrite Hval in Hv. rewrite Hcnt by done.
    specialize (Hrange i Hi Hv). lia.
  - intros i Hi Hv. destruct (decide (i = t)) as [-> | Hne]; [congruence |].
    destruct (Hrest i ltac:(lia) Hne) as (Hval & _ & Hsame).
    rewrite Hval in Hv. rewrite Hsame by done. by apply Hfree.
  - intros i j Hi Hj Hvi Hvj Heq.
    destruct (decide (i = t)) as [-> | Hit], (decide (j = t)) as [-> | Hjt];
      [done | | |].
    + destruct (Hrest j ltac:(lia) Hjt) as (Hval & Hcnt & _).
      rewrite Hval in Hvj. rewrite Hcnt in Heq by done.
      specialize (Hrange j Hj Hvj). lia.
    + destruct (Hrest i ltac:(lia) Hit) as (Hval & Hcnt & _).
      rewrite Hval in Hvi. rewrite Hcnt in Heq by done.
      specialize (Hrange i Hi Hvi). lia.
    + destruct (Hrest i ltac:(lia) Hit) as (Hvali & Hcnti & _).
      destruct (Hrest j ltac:(lia) Hjt) as (Hvalj & Hcntj & _).
      rewrite Hvali in Hvi. rewrite Hvalj in Hvj.
      rewrite Hcnti, Hcntj in Heq by done.
      apply Hdist; [done | done | done | done | lia].
Qed.

Lemma accessData_recency s b E addr st n :
  valid_config s b E → wf_cache s E (cache st) → 0 ≤ n < INT_MAX →
  Forall (recency_ok n) (cache st) →
  ∃ st' o,
    accessData s b E addr st = Some (st', o) ∧
    wf_cache s E (cache st') ∧ Forall (recency_ok (n + 1)) (cache st').
Proof.
  intros Hcfg Hwf Hn Hrec.
  destruct (accessData_step s b E addr st Hcfg Hwf)
    as (tg & si & set & set' & o & Hdec & Hsi & Hset & Hlen & Hstep & Hacc).
  exists (counted o (<[Z.to_nat si := set']> (cache st)) st), o.
  rewrite cache_counted. split_and!; [done | |].
  - apply wf_cache_insert; [done |].
    by rewrite (access_step_length _ _ _ _ _ Hstep).
  - apply Forall_insert.
    + eapply Forall_impl; [done |]. intros x. apply recency_ok_weaken. lia.
    + eapply access_step_recency; [done | done | done |].
      by eapply (proj1 (Forall_lookup _ _) Hrec).
Qed.

Lemma accessData_seq_recency s b E addrs :
  valid_config s b E →
  ∀ st n,
    wf_cache s E (cache st) → 0 ≤ n →
    n + Z.of_nat (length addrs) ≤ INT_MAX →
    Forall (recency_ok n) (cache st) →
    ∃ st', accessData_seq s b E addrs st = Some st' ∧
           wf_cache s E (cache st') ∧
           Forall (recency_ok (n + Z.of_nat (length addrs))) (cache st').
Proof.
  intros Hcfg. induction addrs as [| a rest IH]; intros st n Hwf Hn Hlen Hrec.
  - exists st. simpl. by rewrite Z.add_0_r.
  - cbn [length] in Hlen.
    destruct (accessData_recency s b E a st n Hcfg Hwf ltac:(lia) Hrec)
      as (st1 & o & Hacc & Hwf1 & Hrec1).
    destruct (IH st1 (n + 1) Hwf1 ltac:(lia) ltac:(lia) Hrec1)
      as (st' & Hseq & Hwf' & Hrec').
    exists st'. cbn [accessData_seq]. rewrite Hacc. simpl.
    split_and!; [done | done |].
    by replace (n + Z.of_nat (S (length rest)))
         with (n + 1 + Z.of_nat (length rest)) by lia.
Qed.

Lemma recency_ok_initCache s E : Forall (recency_ok 0) (initCache s E).
Proof. apply Forall_replicate. by apply recency_ok_init. Qed.

(** X9: in every state reached from the initial one by a sequence of
    accesses (at most [INT_MAX] of them), the recency counters of the
    lines in use of a set are pairwise distinct and lie between 0 and the
    number of accesses made, and every line not in use still is as
    [initCache] left it. *)
Theorem counters_in_use_are_distinct s b E addrs :
  valid_config s b E →
  Z.of_nat (length addrs) ≤ INT_MAX →
  ∃ st, accessData_seq s b E addrs (init_state s E) = Some st ∧
        Forall (recency_ok (Z.of_nat (length addrs))) (cache st).
Proof.
  intros Hcfg Hlen.
  destruct (accessData_seq_recency s b E addrs Hcfg (init_state s E) 0
              (wf_cache_init s E) ltac:(done) ltac:(lia)
              (recency_ok_initCache s E))
    as (st & Hseq & _ & Hrec).
  by exists st.
Qed.

Lemma counters_in_use_are_distinct_witness :
  ∃ st, accessData_seq 1 1 2 [0; 4; 8; 4; 2; 12] (init_state 1 2) = Some st ∧
        Forall (recency_ok (Z.of_nat (length [0; 4; 8; 4; 2; 12])))
          (cache st).
Proof.
  apply counters_in_use_are_distinct.
  - unfold valid_config, INT_MAX. lia.
  - vm_compute. congruence.
Defined.

(** X10: in a state reached from the initial one, ties do not occur: when
    an access evicts, the victim is the one line of the set whose recency
    counter is strictly greater than that of every other line.  The
    victim receives the tag and the other lines keep theirs. *)
Theorem reachable_victim_is_strict_maximum s b E addrs addr st st' tg
    setIndex :
  valid_config s b E →
  Z.of_nat (length addrs) ≤ INT_MAX →
  accessData_seq s b E addrs (init_state s E) = Some st →
  decode s b addr = Some (tg, setIndex) →
  accessData s b E addr st = Some (st', Vmiss_eviction) →
  ∃ v, 0 ≤ v < E ∧
       (∀ j, 0 ≤ j < E → j ≠ v →
          lru_counter (line_at (cache st) setIndex j)
          < lru_counter (line_at (cache st) setIndex v)) ∧
       tag (line_at (cache st') setIndex v) = tg ∧
       (∀ j, 0 ≤ j < E → j ≠ v →
          tag (line_at (cache st') setIndex j)
          = tag (line_at (cache st) setIndex j)).
Proof.
  intros Hcfg Hlen Hseq Hdec Hev.
  destruct (accessData_seq_recency s b E addrs Hcfg (init_state s E) 0
              (wf_cache_init s E) ltac:(done) ltac:(lia)
              (recency_ok_initCache s E))
    as (st0 & Hseq0 & Hwf & Hrec).
  rewrite Hseq in Hseq0. injection Hseq0 as <-.
  pose proof Hcfg as (_ & _ & _ & HE).
  destruct (accessData_lines s b E addr st Hcfg Hwf)
    as (tg' & si & set & st1 & o & t & Hdec' & Hsi & Hset & Hlen' & Hacc & _
        & _ & Ht & Hch & Hold & Hnew & _).
  rewrite Hdec in Hdec'. injection Hdec' as <- <-.
  rewrite Hev in Hacc. injection Hacc as <- <-.
  destruct Hch as (_ & Hall & lv & (_ & Hub & Hcase) & ->).
  destruct (proj1 (Forall_lookup _ _) Hrec _ _ Hset) as (Hrange & _ & Hdist).
  rewrite Hlen' in *.
  destruct Hcase as [[Hm' _] | (_ & _ & _ & Heq & _)].
  { pose proof (Hub 0 ltac:(lia) (Hall 0 ltac:(lia))) as H0.
    pose proof (Hrange 0 ltac:(lia) (Hall 0 ltac:(lia))). simpl in Hm'. lia. }
  exists (lru_index lv). setoid_rewrite Hold.
  split_and!; [lia | lia | | |].
  - intros j Hj Hne.
    pose proof (Hub j Hj (Hall j Hj)) as Hle. rewrite <- Heq in Hle.
    destruct (decide (lru_counter (set_line set j)
                      = lru_counter (set_line set (lru_index lv))))
      as [Htie | ?]; [| lia].
    destruct Hne. apply Hdist; [lia | lia | | | done]; apply Hall; lia.
  - rewrite Hnew by done. rewrite Z.eqb_refl.
    by rewrite (proj2 (touch_line_fields _ _ _)).
  - intros j Hj Hne. rewrite Hnew by done.
    destruct (Z.eqb_spec j (lru_index lv)); [done |].
    apply touch_line_fields.
Qed.

Lemma reachable_victim_is_strict_maximum_witness :
  let st := mkState [[mkLine 1 2 0; mkLine 1 1 1]; [line0; line0]] 0 3 1 in
  let st' := mkState [[mkLine 1 2 1; mkLine 1 3 0]; [line0; line0]] 0 4 2 in
  ∃ v, 0 ≤ v < 2 ∧
       (∀ j, 0 ≤ j < 2 → j ≠ v →
          lru_counter (line_at (cache st) 0 j)
          < lru_counter (line_at (cache st) 0 v)) ∧
       tag (line_at (cache st') 0 v) = 3 ∧
       (∀ j, 0 ≤ j < 2 → j ≠ v →
          tag (line_at (cache st') 0 j) = tag (line_at (cache st) 0 j)).
Proof.
  intros st st'.
  apply (reachable_victim_is_strict_maximum 1 0 2 [0; 2; 4] 6 st st' 3 0).
  - unfold valid_config, INT_MAX. lia.
  - vm_compute. congruence.
  - reflexivity.
  - reflexivity.
  - reflexivity.
Defined.

(** ** Lines in use and the counters *)

Lemma set_in_use_bounds (set : cache_set_t) :
  0 ≤ set_in_use set ≤ Z.of_nat (length set).
Proof.
  induction set as [| l rest IH]; simpl; [lia |].
  destruct (is_valid l); lia.
Qed.

Lemma set_in_use_ext (set set' : cache_set_t) :
  length set = length set' →
  (∀ k l l', set !! k = Some l → set' !! k = Some l' →
             is_valid l = is_valid l') →
  set_in_use set = set_in_use set'.
Proof.
  revert set'. induction set as [| l rest IH]; intros [| l' rest'] Hlen Hsame;
    simpl in *; try done.
  rewrite (Hsame 0%nat l l') by done.
  rewrite (IH rest'); [done | lia |].
  intros k x x' Hx Hx'. by apply (Hsame (S k)).
Qed.

Lemma set_in_use_insert (set : cache_set_t) k l x :
  set !! k = Some l →
  set_in_use (<[k := x]> set)
  = set_in_use set - (if is_valid l then 1 else 0)
    + (if is_valid x then 1 else 0).
Proof.
  revert k. induction set as [| y rest IH]; intros [| k] Hl; simpl in *;
    try done.
  - injection Hl as ->. lia.
  - rewrite (IH k) by done. lia.
Qed.

Lemma lines_in_use_insert (c : cache_t) k set set' :
  c !! k = Some set →
  lines_in_use (<[k := set']> c)
  = lines_in_use c - set_in_use set + set_in_use set'.
Proof.
  revert k. induction c as [| y rest IH]; intros [| k] Hset; simpl in *;
    try done.
  - injection Hset as ->. lia.
  - rewrite (IH k) by done. lia.
Qed.

Lemma lines_in_use_bounds E (c : cache_t) :
  0 ≤ E → Forall (λ set : cache_set_t, length set = Z.to_nat E) c →
  0 ≤ lines_in_use c ≤ Z.of_nat (length c) * E.
Proof.
  intros HE Hsets. induction Hsets as [| set rest Hlen _ IH]; simpl; [lia |].
  pose proof (set_in_use_bounds set). lia.
Qed.

Lemma lines_in_use_initCache s E : lines_in_use (initCache s E) = 0.
Proof.
  unfold initCache.
  assert (Hset : ∀ n, set_in_use (replicate n line0) = 0)
    by (induction n; simpl; lia).
  induction (Z.to_nat (num_sets s)) as [| n IH]; simpl; [done |].
  rewrite Hset. lia.
Qed.

Lemma access_step_in_use E tg set set' o :
  length set = Z.to_nat E →
  access_step E tg set set' o →
  set_in_use set' = set_in_use set + match o with Vmiss => 1 | _ => 0 end.
Proof.
  intros Hlen Hstep.
  pose proof (access_step_length _ _ _ _ _ Hstep) as Hlen'.
  destruct (access_step_lines _ _ _ _ _ Hlen Hstep) as (t & Ht & Hch & Hlines).
  assert (Hvalid : ∀ k l l', set !! k = Some l → set' !! k = Some l' →
            is_valid l'
            = if Z.of_nat k =? t then is_valid (install o tg l)
              else is_valid l).
  { intros k l l' Hl Hl'.
    destruct (lookup_set_line set k l Hl) as [<- Hk].
    destruct (lookup_set_line set' k l' Hl') as [<- _].
    rewrite Hlines by lia. rewrite is_valid_touch_line.
    by destruct (Z.of_nat k =? t). }
  pose proof (set_line_lookup set t ltac:(lia)) as Hlt.
  unfold chosen, holds in Hch. destruct o.
  - rewrite Z.add_0_r. symmetry. apply set_in_use_ext; [done |].
    intros k l l' Hl Hl'. rewrite (Hvalid k l l') by done.
    by destruct (Z.of_nat k =? t).
  - destruct Hch as (_ & Hinv & _).
    rewrite (set_in_use_ext set' (<[Z.to_nat t := mkLine 1 tg 0]> set)).
    + rewrite (set_in_use_insert set _ _ _ Hlt), Hinv. simpl. lia.
    + by rewrite length_insert.
    + intros k l' x Hl' Hx.
      destruct (lookup_lt_is_Some_2 set k) as [l Hl].
      { rewrite <- Hlen'. by eapply lookup_lt_Some. }
      rewrite (Hvalid k l l') by done.
      destruct (Z.eqb_spec (Z.of_nat k) t) as [Hkt | Hkt].
      * rewrite <- Hkt, Nat2Z.id in Hx.
        rewrite list_lookup_insert_eq in Hx by (by eapply lookup_lt_Some).
        by injection Hx as <-.
      * rewrite list_lookup_insert_ne in Hx by lia. congruence.
  - rewrite Z.add_0_r. symmetry. apply set_in_use_ext; [done |].
    intros k l l' Hl Hl'. rewrite (Hvalid k l l') by done.
    by destruct (Z.of_nat k =? t).
Qed.

Lemma accessData_usage s b E addr st :
  valid_config s b E → wf_cache s E (cache st) →
  0 ≤ hit_count st → 0 ≤ eviction_count st ≤ miss_count st →
  hit_count st + miss_count st < INT_MAX →
  miss_count st - eviction_count st = lines_in_use (cache st) →
  ∃ st' o,
    accessData s b E addr st = Some (st', o) ∧
    wf_cache s E (cache st') ∧
    0 ≤ hit_count st' ∧ 0 ≤ eviction_count st' ≤ miss_count st' ∧
    hit_count st' + miss_count st' = hit_count st + miss_count st + 1 ∧
    miss_count st' - eviction_count st' = lines_in_use (cache st').
Proof.
  intros Hcfg Hwf Hh He Hsum Huse.
  destruct (accessData_step s b E addr st Hcfg Hwf)
    as (tg & si & set & set' & o & Hdec & Hsi & Hset & Hlen & Hstep & Hacc).
  exists (counted o (<[Z.to_nat si := set']> (cache st)) st), o.
  rewrite cache_counted.
  rewrite (lines_in_use_insert _ _ set) by done.
  rewrite (access_step_in_use _ _ _ _ _ Hlen Hstep).
  assert (Hih : int_incr (hit_count st) = hit_count st + 1)
    by (apply int_incr_small; unfold INT_MIN; lia).
  assert (Him : int_incr (miss_count st) = miss_count st + 1)
    by (apply int_incr_small; unfold INT_MIN; lia).
  assert (Hie : int_incr (eviction_count st) = eviction_count st + 1)
    by (apply int_incr_small; unfold INT_MIN; lia).
  split_and!; [done | | ..].
  - apply wf_cache_insert; [done |].
    by rewrite (access_step_length _ _ _ _ _ Hstep).
  - destruct o; simpl; lia.
  - destruct o; simpl; lia.
  - destruct o; simpl; lia.
  - destruct o; simpl; lia.
  - destruct o; simpl; lia.
Qed.

Lemma accessData_seq_usage s b E addrs :
  valid_config s b E →
  ∀ st,
    wf_cache s E (cache st) →
    0 ≤ hit_count st → 0 ≤ eviction_count st ≤ miss_count st →
    hit_count st + miss_count st + Z.of_nat (length addrs) ≤ INT_MAX →
    miss_count st - eviction_count st = lines_in_use (cache st) →
    ∃ st',
      accessData_seq s b E addrs st = Some st' ∧
      wf_cache s E (cache st') ∧
      0 ≤ hit_count st' ∧ 0 ≤ eviction_count st' ≤ miss_count st' ∧
      hit_count st' + miss_count st'
      = hit_count st + miss_count st + Z.of_nat (length addrs) ∧
      miss_count st' - eviction_count st' = lines_in_use (cache st').
Proof.
  intros Hcfg. induction addrs as [| a rest IH];
    intros st Hwf Hh He Hsum Huse.
  - exists st. simpl. split_and!; try done; lia.
  - cbn [length] in Hsum.
    destruct (accessData_usage s b E a st Hcfg Hwf Hh He ltac:(lia) Huse)
      as (st1 & o & Hacc & Hwf1 & Hh1 & He1 & Hsum1 & Huse1).
    destruct (IH st1 Hwf1 Hh1 He1 ltac:(lia) Huse1)
      as (st' & Hseq & Hwf' & Hh' & He' & Hsum' & Huse').
    exists st'. cbn [accessData_seq length]. rewrite Hacc. simpl.
    split_and!; try done; lia.
Qed.

Lemma init_state_usage s b E addrs :
  valid_config s b E → Z.of_nat (length addrs) ≤ INT_MAX →
  ∃ st,
    accessData_seq s b E addrs (init_state s E) = Some st ∧
    hit_count st + miss_count st = Z.of_nat (length addrs) ∧
    0 ≤ hit_count st ∧ 0 ≤ eviction_count st ≤ miss_count st ∧
    miss_count st - eviction_count st = lines_in_use (cache st) ∧
    lines_in_use (cache st) ≤ 2 ^ s * E.
Proof.
  intros Hcfg Hlen.
  destruct (accessData_seq_usage s b E addrs Hcfg (init_state s E)
              (wf_cache_init s E) ltac:(done) ltac:(done)
              ltac:(simpl; lia)
              ltac:(simpl; by rewrite lines_in_use_initCache))
    as (st & Hseq & [Hsets Hlines] & Hh & He & Hsum & Huse).
  exists st. simpl in Hsum.
  split_and!; [done | lia | lia | lia | lia | done |].
  pose proof Hcfg as (Hs & _ & _ & HE).
  pose proof (lines_in_use_bounds E (cache st) ltac:(lia) Hlines) as Hb.
  rewrite Hsets in Hb. rewrite Z2Nat.id in Hb; [lia |].
  pose proof (Z.pow_pos_nonneg 2 s). lia.
Qed.

(** X11: after any sequence of accesses from the initial state (at most
    [INT_MAX] of them), [hit_count + miss_count] is the number of
    accesses made, [eviction_count] is at most [miss_count], and the
    misses that did not evict are exactly the lines in use of the grid,
    of which there are at most [2^s * E]. *)
Theorem misses_minus_evictions_are_lines_in_use s b E addrs :
  valid_config s b E → Z.of_nat (length addrs) ≤ INT_MAX →
  ∃ st,
    accessData_seq s b E addrs (init_state s E) = Some st ∧
    hit_count st + miss_count st = Z.of_nat (length addrs) ∧
    0 ≤ hit_count st ∧ 0 ≤ eviction_count st ≤ miss_count st ∧
    miss_count st - eviction_count st = lines_in_use (cache st) ∧
    lines_in_use (cache st) ≤ 2 ^ s * E.
Proof. apply init_state_usage. Qed.

Lemma misses_minus_evictions_are_lines_in_use_witness :
  ∃ st,
    accessData_seq 1 1 2 [0; 4; 8; 4; 2; 12] (init_state 1 2) = Some st ∧
    hit_count st + miss_count st = Z.of_nat (length [0; 4; 8; 4; 2; 12]) ∧
    0 ≤ hit_count st ∧ 0 ≤ eviction_count st ≤ miss_count st ∧
    miss_count st - eviction_count st = lines_in_use (cache st) ∧
    lines_in_use (cache st) ≤ 2 ^ 1 * 2.
Proof.
  apply misses_minus_evictions_are_lines_in_use.
  - unfold valid_config, INT_MAX. lia.
  - vm_compute. congruence.
Defined.

(** ** The replay as a sequence of accesses *)

Lemma replayTrace_loop_seq s b E scan file :
  ∀ buf addr st,
    replayTrace_loop s b E scan file buf addr st
    = accessData_seq s b E (trace_addresses scan file buf addr) st.
Proof.
  induction file as [| chunk rest IH]; intros buf addr st; [done |].
  cbn [replayTrace_loop trace_addresses]. cbn zeta.
  destruct (is_LSM (char_at (fgets_store chunk buf) 1)); [| apply IH].
  set (a := scanned_addr addr (scan (cstring (drop 3 (fgets_store chunk buf))))).
  destruct (Ascii.eqb (char_at (fgets_store chunk buf) 1) "M").
  - cbn [app accessData_seq].
    destruct (accessData s b E a st) as [[st1 o1] |]; [| done]. simpl.
    destruct (accessData s b E a st1) as [[st2 o2] |]; [| done]. simpl.
    apply IH.
  - cbn [app accessData_seq].
    destruct (accessData s b E a st) as [[st1 o1] |]; [| done]. simpl.
    apply IH.
Qed.

Lemma trace_addresses_length scan file :
  Forall (λ chunk, chunk ≠ []) file →
  ∀ buf addr,
    Z.of_nat (length (trace_addresses scan file buf addr))
    = trace_accesses file.
Proof.
  induction 1 as [| chunk rest Hne _ IH]; intros buf addr; [done |].
  cbn [trace_addresses trace_accesses]. cbn zeta.
  rewrite char_at_fgets_store by done. unfold record_accesses.
  destruct (is_LSM (char_at chunk 1)) eqn:Hop.
  - rewrite length_app, Nat2Z.inj_add, IH.
    by destruct (Ascii.eqb (char_at chunk 1) "M").
  - rewrite IH.
    assert (HM : Ascii.eqb (char_at chunk 1) "M" = false).
    { unfold is_LSM in Hop. destruct (Ascii.eqb (char_at chunk 1) "M");
        [by rewrite orb_true_r in Hop | done]. }
    by rewrite HM.
Qed.

(** X12: [replayTrace] is the sequence of [accessData] calls on the
    addresses of the lines whose character at offset 1 is [S], [L] or
    [M], each [M] line giving its address twice, in the order of the
    file; lines are not reordered, merged or dropped. *)
Theorem replay_is_the_access_sequence s b E scan file buf0 st :
  replayTrace s b E scan file buf0 st
  = accessData_seq s b E (trace_addresses scan file buf0 0) st.
Proof. apply replayTrace_loop_seq. Qed.

(** ** The summary [main] prints *)

(** X13: with a geometry inside defined C, non-zero [s] and [b], and a
    trace file of non-empty lines whose accesses fit an [int], [main]
    exits with status 0 after printing one summary, in which hits plus
    misses is the number of accesses of the trace, evictions do not
    exceed misses, and the misses that did not evict number at most
    [2^s * E], the lines of the cache. *)
Theorem main_prints_consistent_summary s b E scan file buf0 :
  valid_config s b E → s ≠ 0 → b ≠ 0 →
  Forall (λ chunk, chunk ≠ []) file →
  trace_accesses file ≤ INT_MAX →
  ∃ hits misses evictions,
    main s b E scan (Some file) buf0
    = Exit 0 [Summary hits misses evictions] ∧
    hits + misses = trace_accesses file ∧
    0 ≤ hits ∧ 0 ≤ evictions ≤ misses ∧
    misses - evictions ≤ 2 ^ s * E.
Proof.
  intros Hcfg Hs Hb Hfile Hsum.
  pose proof Hcfg as (_ & _ & _ & HE).
  pose proof (trace_addresses_length scan file Hfile buf0 0) as Hlen.
  destruct (init_state_usage s b E (trace_addresses scan file buf0 0) Hcfg
              ltac:(lia))
    as (st & Hseq & Hcount & Hh & He & Huse & Hcap).
  exists (hit_count st), (miss_count st), (eviction_count st).
  split_and!; [| lia | lia | lia | lia | lia].
  unfold main.
  assert (Hguard : (s =? 0) || (E =? 0) || (b =? 0)
                   || bool_decide (Some file = None) = false).
  { destruct (Z.eqb_spec s 0), (Z.eqb_spec E 0), (Z.eqb_spec b 0);
      try lia. done. }
  rewrite Hguard. unfold replayTrace. by rewrite replayTrace_loop_seq, Hseq.
Qed.

Lemma main_prints_consistent_summary_witness :
  let file := map text_line [" L 10,1"; " M 20,4"; "I 0400d7d4,8";
                             " S 18,8"; " L 110,1"; " L 210,4"] in
  ∃ hits misses evictions,
    main 4 4 1 sscanf_model (Some file) zero_buf
    = Exit 0 [Summary hits misses evictions] ∧
    hits + misses = trace_accesses file ∧
    0 ≤ hits ∧ 0 ≤ evictions ≤ misses ∧
    misses - evictions ≤ 2 ^ 4 * 1.
Proof.
  intros file. apply main_prints_consistent_summary.
  - unfold valid_config, INT_MAX. lia.
  - lia.
  - lia.
  - repeat constructor; done.
  - vm_compute. congruence.
Defined.

(** ** Verbose mode *)

Lemma printed_app f log1 log2 :
  printed f (log1 ++ log2) = printed f log1 + printed f log2.
Proof. unfold printed. rewrite filter_app, length_app. lia. Qed.

Lemma printed_verbose_block f v addr o :
  v ≠ 0 → printed f (verbose_block v addr o) = Z.b2z (f o).
Proof.
  intros Hv. unfold verbose_block. destruct (Z.eqb_spec v 0); [done |].
  unfold printed. rewrite filter_cons. simpl.
  destruct (f o); by case_decide.
Qed.

Lemma accessData_outcome_counts s b E addr st :
  valid_config s b E → wf_cache s E (cache st) →
  0 ≤ hit_count st → 0 ≤ eviction_count st ≤ miss_count st →
  hit_count st + miss_count st < INT_MAX →
  ∃ st' o,
    accessData s b E addr st = Some (st', o) ∧
    wf_cache s E (cache st') ∧
    hit_count st' = hit_count st + Z.b2z (is_hit o) ∧
    miss_count st' = miss_count st + Z.b2z (is_miss o) ∧
    eviction_count st' = eviction_count st + Z.b2z (is_eviction o) ∧
    0 ≤ hit_count st' ∧ 0 ≤ eviction_count st' ≤ miss_count st' ∧
    hit_count st' + miss_count st' = hit_count st + miss_count st + 1.
Proof.
  intros Hcfg Hwf Hh He Hsum.
  destruct (accessData_step s b E addr st Hcfg Hwf)
    as (tg & si & set & set' & o & Hdec & Hsi & Hset & Hlen & Hstep & Hacc).
  exists (counted o (<[Z.to_nat si := set']> (cache st)) st), o.
  rewrite cache_counted.
  assert (Hih : int_incr (hit_count st) = hit_count st + 1)
    by (apply int_incr_small; unfold INT_MIN; lia).
  assert (Him : int_incr (miss_count st) = miss_count st + 1)
    by (apply int_incr_small; unfold INT_MIN; lia).
  assert (Hie : int_incr (eviction_count st) = eviction_count st + 1)
    by (apply int_incr_small; unfold INT_MIN; lia).
  split_and!; [done | | ..].
  - apply wf_cache_insert; [done |].
    by rewrite (access_step_length _ _ _ _ _ Hstep).
  - destruct o; simpl; lia.
  - destruct o; simpl; lia.
  - destruct o; simpl; lia.
  - destruct o; simpl; lia.
  - destruct o; simpl; lia.
  - destruct o; simpl; lia.
  - destruct o; simpl; lia.
Qed.

Lemma replayTrace_verbose_counts v s b E scan file :
  valid_config s b E → v ≠ 0 →
  Forall (λ chunk, chunk ≠ []) file →
  ∀ buf addr st,
    wf_cache s E (cache st) →
    0 ≤ hit_count st → 0 ≤ eviction_count st ≤ miss_count st →
    hit_count st + miss_count st + trace_accesses file ≤ INT_MAX →
    ∃ st' log,
      replayTrace_verbose v s b E scan file buf addr st = Some (st', log) ∧
      log.*1 = trace_addresses scan file buf addr ∧
      hit_count st' = hit_count st + printed is_hit log ∧
      miss_count st' = miss_count st + printed is_miss log ∧
      eviction_count st' = eviction_count st + printed is_eviction log.
Proof.
  intros Hcfg Hv Hfile.
  induction Hfile as [| chunk rest Hne _ IH];
    intros buf addr st Hwf Hh He Hsum.
  { exists st, []. simpl. unfold printed. simpl. split_and!; try done; lia. }
  cbn [replayTrace_verbose trace_addresses trace_accesses] in *. cbn zeta.
  pose proof (trace_accesses_nonneg rest) as Hrest.
  rewrite char_at_fgets_store by done. unfold record_accesses in Hsum.
  destruct (is_LSM (char_at chunk 1)) eqn:Hop.
  - set (a := scanned_addr addr
                (scan (cstring (drop 3 (fgets_store chunk buf))))).
    unfold accessData_verbose.
    destruct (Ascii.eqb (char_at chunk 1) "M") eqn:HM.
    + destruct (accessData_outcome_counts s b E a st Hcfg Hwf Hh He
                  ltac:(lia))
        as (st1 & o1 & Hacc1 & Hwf1 & Hh1 & Hm1 & He1 & Hh1' & He1' & Hs1).
      destruct (accessData_outcome_counts s b E a st1 Hcfg Hwf1 Hh1' He1'
                  ltac:(lia))
        as (st2 & o2 & Hacc2 & Hwf2 & Hh2 & Hm2 & He2 & Hh2' & He2' & Hs2).
      destruct (IH (fgets_store chunk buf) a st2 Hwf2 Hh2' He2' ltac:(lia))
        as (st' & log & Hrun & Haddrs & Hh' & Hm' & He').
      rewrite Hacc1. simpl. rewrite Hacc2. simpl. rewrite Hrun. simpl.
      exists st', (verbose_block v a o1 ++ verbose_block v a o2 ++ log).
      rewrite !printed_app, !printed_verbose_block by done.
      split_and!; [done | | lia | lia | lia].
      rewrite !fmap_app, Haddrs. unfold verbose_block.
      by destruct (Z.eqb_spec v 0).
    + destruct (accessData_outcome_counts s b E a st Hcfg Hwf Hh He
                  ltac:(lia))
        as (st1 & o1 & Hacc1 & Hwf1 & Hh1 & Hm1 & He1 & Hh1' & He1' & Hs1).
      destruct (IH (fgets_store chunk buf) a st1 Hwf1 Hh1' He1' ltac:(lia))
        as (st' & log & Hrun & Haddrs & Hh' & Hm' & He').
      rewrite Hacc1. simpl. rewrite Hrun. simpl.
      exists st', (verbose_block v a o1 ++ log).
      rewrite !printed_app, !printed_verbose_block by done.
      split_and!; [done | | lia | lia | lia].
      rewrite !fmap_app, Haddrs. unfold verbose_block.
      by destruct (Z.eqb_spec v 0).
  - assert (HM : Ascii.eqb (char_at chunk 1) "M" = false).
    { unfold is_LSM in Hop. destruct (Ascii.eqb (char_at chunk 1) "M");
        [by rewrite orb_true_r in Hop | done]. }
    rewrite HM in Hsum.
    destruct (IH (fgets_store chunk buf) addr st Hwf Hh He ltac:(lia))
      as (st' & log & Hrun & Haddrs & Hh' & Hm' & He').
    by exists st', log.
Qed.

(** X15: in verbose mode, a replay from the initial state prints one line
    per access, for the addresses of the trace in order, and the final
    counters are the numbers of lines printed as hit, as miss (with or
    without eviction) and as miss with eviction. *)
Theorem verbose_lines_match_counters v s b E scan file buf0 :
  valid_config s b E → v ≠ 0 →
  Forall (λ chunk, chunk ≠ []) file →
  trace_accesses file ≤ INT_MAX →
  ∃ st log,
    replayTrace_verbose v s b E scan file buf0 0 (init_state s E)
    = Some (st, log) ∧
    log.*1 = trace_addresses scan file buf0 0 ∧
    hit_count st = printed is_hit log ∧
    miss_count st = printed is_miss log ∧
    eviction_count st = printed is_eviction log.
Proof.
  intros Hcfg Hv Hfile Hsum.
  destruct (replayTrace_verbose_counts v s b E scan file Hcfg Hv Hfile
              buf0 0 (init_state s E) (wf_cache_init s E)
              ltac:(done) ltac:(done) ltac:(simpl; lia))
    as (st & log & Hrun & Haddrs & Hh & Hm & He).
  exists st, log. simpl in Hh, Hm, He.
  split_and!; [done | done | lia | lia | lia].
Qed.

Lemma verbose_lines_match_counters_witness :
  let file := map text_line [" L 10,1"; " M 20,4"; "I 0400d7d4,8";
                             " S 18,8"; " L 110,1"; " L 210,4"] in
  ∃ st log,
    replayTrace_verbose 1 4 4 1 sscanf_model file zero_buf 0 (init_state 4 1)
    = Some (st, log) ∧
    log.*1 = trace_addresses sscanf_model file zero_buf 0 ∧
    hit_count st = printed is_hit log ∧
    miss_count st = printed is_miss log ∧
    eviction_count st = printed is_eviction log.
Proof.
  intros file. apply verbose_lines_match_counters.
  - unfold valid_config, INT_MAX. lia.
  - lia.
  - repeat constructor; done.
  - vm_compute. congruence.
Defined.

(** ** The command line *)

Section CommandLineFacts.

Variable atoi : list ascii → Z.
Variable fopen : list ascii → option (list (list ascii)).
Variable scan : list ascii → scanned.

Lemma option_loop_exit opts :
  ∀ g p, option_loop atoi opts g = inl p → p = CliExit 0 [Out UsageText].
Proof.
  induction opts as [| [c optarg] rest IH]; intros g p Hloop; [done |].
  cbn [option_loop] in Hloop.
  repeat (destruct (Ascii.eqb c _); [by eapply IH |]).
  destruct (Ascii.eqb c "h"); by injection Hloop as <-.
Qed.

Lemma option_loop_settings pre rest :
  Forall (λ o : ascii * list ascii, is_setting o.1 = true) pre →
  ∀ g, ∃ g', option_loop atoi (pre ++ rest) g = option_loop atoi rest g'.
Proof.
  induction 1 as [| [c optarg] pre Hc _ IH]; intros g; [by exists g |].
  cbn [app option_loop]. unfold is_setting in Hc. simpl in Hc.
  repeat (destruct (Ascii.eqb c _); [apply IH |]). done.
Qed.

(** X16: whenever the program comes to an end it exits with status 0:
    after the summary, after the usage text of [-h], and also after an
    unrecognised option or a missing argument, where [printUsage] exits
    before the [exit(1)] that follows it. *)
Theorem exit_status_is_always_zero opts buf0 status out :
  main_cli atoi fopen scan opts buf0 = CliExit status out → status = 0.
Proof.
  unfold main_cli.
  destruct (option_loop atoi opts globals0) as [p | g] eqn:Hloop.
  - apply option_loop_exit in Hloop as ->. by intros [= <- _].
  - destruct ((g_s g =? 0) || (g_E g =? 0) || (g_b g =? 0)
              || bool_decide (g_trace_file g = None)).
    + by intros [= <- _].
    + destruct (g_trace_file g ≫= fopen) as [file |]; [| done].
      destruct (replayTrace_verbose _ _ _ _ _ _ _ _ _) as [[st log] |];
        [| done].
      by intros [= <- _].
Qed.

(** X17: an option character other than [s], [E], [b], [t], [v] ([h] or
    an unrecognised one) met after any number of those ends the program
    with the usage text alone: the options that follow are not read, the
    arguments are not checked and nothing is simulated. *)
Theorem other_option_prints_usage_only pre c optarg post buf0 :
  Forall (λ o : ascii * list ascii, is_setting o.1 = true) pre →
  is_setting c = false →
  main_cli atoi fopen scan (pre ++ (c, optarg) :: post) buf0
  = CliExit 0 [Out UsageText].
Proof.
  intros Hpre Hc. unfold main_cli.
  destruct (option_loop_settings pre ((c, optarg) :: post) Hpre globals0)
    as [g' ->].
  cbn [option_loop]. unfold is_setting in Hc.
  destruct (Ascii.eqb c "s"); [done |].
  destruct (Ascii.eqb c "E"); [done |].
  destruct (Ascii.eqb c "b"); [done |].
  destruct (Ascii.eqb c "t"); [done |].
  destruct (Ascii.eqb c "v"); [done |].
  by destruct (Ascii.eqb c "h").
Qed.

End CommandLineFacts.

Lemma exit_status_is_always_zero_witness :
  main_cli atoi_model fopen_model sscanf_model
    [opt "s" "4"; opt "E" "1"; opt "t" "yi.trace"] zero_buf
  = CliExit 0 [Out MissingArgument; Out UsageText] ∧ 0 = 0.
Proof.
  split; [reflexivity |].
  apply (exit_status_is_always_zero atoi_model fopen_model sscanf_model
           [opt "s" "4"; opt "E" "1"; opt "t" "yi.trace"] zero_buf 0
           [Out MissingArgument; Out UsageText]).
  reflexivity.
Defined.

Lemma other_option_prints_usage_only_witness :
  main_cli atoi_model fopen_model sscanf_model
    ([opt "s" "4"; opt "E" "1"] ++ opt "x" "" :: [opt "b" "4"]) zero_buf
  = CliExit 0 [Out UsageText].
Proof.
  apply other_option_prints_usage_only.
  - repeat constructor.
  - reflexivity.
Defined.

(** ** A working set that fits the cache *)

Lemma elem_of_tags_of_set s b si addrs tg :
  tg ∈ tags_of_set s b si addrs
  ↔ ∃ a, a ∈ addrs ∧ decode s b a = Some (tg, si).
Proof.
  unfold tags_of_set. rewrite elem_of_remove_dups, list_elem_of_omap.
  split; intros (a & Ha & Hdec); exists a; (split; [done |]).
  - destruct (decode s b a) as [[tg' si'] |]; [| done]. simpl in Hdec.
    destruct (Z.eqb_spec si' si); [| done]. by injection Hdec as ->; subst.
  - rewrite Hdec. simpl. by rewrite Z.eqb_refl.
Qed.

Lemma tags_of_set_length_mono s b si addrs1 addrs2 :
  (∀ a, a ∈ addrs1 → a ∈ addrs2) →
  (length (tags_of_set s b si addrs1) ≤ length (tags_of_set s b si addrs2))%nat.
Proof.
  intros Hsub. apply submseteq_length, NoDup_submseteq.
  - apply NoDup_remove_dups.
  - intros tg. rewrite !elem_of_tags_of_set.
    intros (a & Ha & Hdec). exists a. auto.
Qed.

(** With room for the tags of the set, an access does not evict. *)
Lemma access_step_no_eviction s b E si tg set set' o addrs a :
  length set = Z.to_nat E → 0 ≤ E →
  distinct_tags set →
  (∀ j l, set !! j = Some l → is_valid l = true →
          tag l ∈ tags_of_set s b si addrs) →
  a ∈ addrs → decode s b a = Some (tg, si) →
  Z.of_nat (length (tags_of_set s b si addrs)) ≤ E →
  access_step E tg set set' o →
  o ≠ Vmiss_eviction.
Proof.
  intros Hlen HE Hd Hseen Ha Hdec Hfit Hstep ->.
  inversion Hstep as [| | lv Hnone Hall _ _]; subst.
  assert (Hvalid : ∀ j l, set !! j = Some l → is_valid l = true).
  { intros j l Hl. destruct (lookup_set_line set j l Hl) as [<- Hj].
    apply Hall. lia. }
  assert (Hnodup : NoDup (tg :: (tag <$> set))).
  { constructor.
    - rewrite list_elem_of_fmap. intros (l & Htag & Hl).
      apply list_elem_of_lookup in Hl as [j Hl].
      destruct (lookup_set_line set j l Hl) as [Hline Hj].
      apply (Hnone (Z.of_nat j)); [lia |].
      unfold holds. rewrite Hline. split; [by eapply Hvalid | done].
    - apply NoDup_alt. intros i j x Hi Hj.
      rewrite list_lookup_fmap in Hi, Hj.
      destruct (set !! i) as [li |] eqn:Hli; [| done].
      destruct (set !! j) as [lj |] eqn:Hlj; [| done].
      simpl in Hi, Hj. injection Hi as Hi. injection Hj as Hj.
      eapply Hd; [done | done | by eapply Hvalid | by eapply Hvalid
                 | congruence]. }
  assert (Hsub : tg :: (tag <$> set) ⊆+ tags_of_set s b si addrs).
  { apply NoDup_submseteq; [done |]. intros x Hx.
    apply elem_of_cons in Hx as [-> | Hx].
    - apply elem_of_tags_of_set. by exists a.
    - apply list_elem_of_fmap in Hx as (l & -> & Hl).
      apply list_elem_of_lookup in Hl as [j Hl].
      eapply Hseen; [done | by eapply Hvalid]. }
  apply submseteq_length in Hsub. simpl in Hsub.
  rewrite length_fmap in Hsub. lia.
Qed.

Lemma accessData_no_eviction s b E pre a rest st :
  valid_config s b E →
  wf_cache s E (cache st) → Forall distinct_tags (cache st) →
  resident_seen s b pre (cache st) →
  working_set_fits s b E (pre ++ a :: rest) →
  ∃ st' o,
    accessData s b E a st = Some (st', o) ∧
    wf_cache s E (cache st') ∧ Forall distinct_tags (cache st') ∧
    resident_seen s b (pre ++ [a]) (cache st') ∧
    eviction_count st' = eviction_count st.
Proof.
  intros Hcfg Hwf Hd Hseen Hfit.
  pose proof Hcfg as (_ & _ & _ & HE).
  destruct (accessData_step s b E a st Hcfg Hwf)
    as (tg & si & set & set' & o & Hdec & Hsi & Hset & Hlen & Hstep & Hacc).
  assert (Hk : (Z.to_nat si < length (cache st))%nat)
    by (by eapply lookup_lt_Some).
  pose proof (access_step_length _ _ _ _ _ Hstep) as Hlen'.
  assert (Hdset : distinct_tags set)
    by (by eapply (proj1 (Forall_lookup _ _) Hd)).
  assert (Hmono : ∀ k tg', tg' ∈ tags_of_set s b k pre →
                           tg' ∈ tags_of_set s b k (pre ++ [a])).
  { intros k tg'. rewrite !elem_of_tags_of_set.
    intros (x & Hx & Hdx). exists x. split; [| done].
    apply elem_of_app. by left. }
  assert (Hno : o ≠ Vmiss_eviction).
  { eapply (access_step_no_eviction s b E si tg set set' o (pre ++ [a]) a);
      try done; [lia | | | ].
    - intros j l Hl Hv. apply Hmono.
      specialize (Hseen (Z.to_nat si) set j l Hset Hl Hv).
      by rewrite Z2Nat.id in Hseen by lia.
    - apply elem_of_app. right. by apply list_elem_of_singleton.
    - pose proof (Hfit si) as Hcap.
      pose proof (tags_of_set_length_mono s b si (pre ++ [a])
                    (pre ++ a :: rest)) as Hle.
      assert (∀ x, x ∈ pre ++ [a] → x ∈ pre ++ a :: rest) as Hin.
      { intros x. rewrite !elem_of_app, list_elem_of_singleton, elem_of_cons.
        tauto. }
      specialize (Hle Hin). lia. }
  exists (counted o (<[Z.to_nat si := set']> (cache st)) st), o.
  rewrite cache_counted. split_and!; [done | | | |].
  - apply wf_cache_insert; [done | congruence].
  - apply Forall_insert; [done |].
    by eapply access_step_distinct_tags.
  - destruct (access_step_view _ _ _ _ _ Hlen Hstep)
      as (t & Ht & [Hvt Htt] & Hother & _).
    intros k x j l Hx Hl Hv.
    apply list_lookup_insert_Some in Hx as [(Heq & <- & _) | (Hne & Hx)].
    + rewrite <- Heq, Z2Nat.id by lia.
      destruct (lookup_set_line set' j l Hl) as [Hline Hj].
      destruct (decide (Z.of_nat j = t)) as [Hjt | Hjt].
      * rewrite <- Hline, Hjt, Htt. apply elem_of_tags_of_set.
        exists a. split; [| done].
        apply elem_of_app. right. by apply list_elem_of_singleton.
      * destruct (Hother (Z.of_nat j) ltac:(lia) Hjt) as [Hval Htag].
        rewrite <- Hline, Htag. apply Hmono.
        pose proof (set_line_lookup set (Z.of_nat j) ltac:(lia)) as Hold.
        specialize (Hseen (Z.to_nat si) set _ _ Hset Hold).
        rewrite Z2Nat.id in Hseen by lia. apply Hseen.
        unfold is_valid in *. by rewrite <- Hval, Hline.
    + apply Hmono. by eapply Hseen.
  - by destruct o.
Qed.

Lemma accessData_seq_no_eviction s b E rest :
  valid_config s b E →
  ∀ pre st,
    wf_cache s E (cache st) → Forall distinct_tags (cache st) →
    resident_seen s b pre (cache st) →
    working_set_fits s b E (pre ++ rest) →
    ∃ st', accessData_seq s b E rest st = Some st' ∧
           eviction_count st' = eviction_count st.
Proof.
  intros Hcfg. induction rest as [| a rest IH];
    intros pre st Hwf Hd Hseen Hfit.
  - by exists st.
  - destruct (accessData_no_eviction s b E pre a rest st Hcfg Hwf Hd Hseen
                Hfit)
      as (st1 & o & Hacc & Hwf1 & Hd1 & Hseen1 & Hev1).
    destruct (IH (pre ++ [a]) st1 Hwf1 Hd1 Hseen1) as (st' & Hseq & Hev').
    { by rewrite <- app_assoc. }
    exists st'. cbn [accessData_seq]. rewrite Hacc. simpl.
    split; [done | congruence].
Qed.

(** X19: when the addresses of a sequence bring at most [E] distinct tags
    to each set, the accesses from the initial state never evict:
    [eviction_count] is still 0 at the end. *)
Theorem fitting_working_set_never_evicts s b E addrs :
  valid_config s b E →
  working_set_fits s b E addrs →
  ∃ st, accessData_seq s b E addrs (init_state s E) = Some st ∧
        eviction_count st = 0.
Proof.
  intros Hcfg Hfit.
  destruct (accessData_seq_no_eviction s b E addrs Hcfg [] (init_state s E)
              (wf_cache_init s E) (distinct_tags_init s E))
    as (st & Hseq & Hev); [| done | by exists st].
  intros k set j l Hset Hl Hv.
  apply lookup_replicate in Hset as [-> _].
  by apply lookup_replicate in Hl as [-> _].
Qed.

Lemma fitting_working_set_never_evicts_witness :
  ∃ st, accessData_seq 1 1 2 [0; 4; 0; 4; 1; 5] (init_state 1 2) = Some st ∧
        eviction_count st = 0.
Proof.
  apply fitting_working_set_never_evicts.
  - unfold valid_config, INT_MAX. lia.
  - intros si. destruct si; vm_compute; congruence.
Defined.

(** ** Removing the lines that are not replayed *)

Lemma cstring_app_NUL l r : cstring (l ++ NUL :: r) = cstring l.
Proof.
  induction l as [| c l IH]; simpl; [done |].
  destruct (Ascii.eqb c NUL); [done | by rewrite IH].
Qed.

Lemma cstring_at_3_fgets_store chunk buf :
  (3 ≤ length chunk)%nat →
  cstring (drop 3 (fgets_store chunk buf)) = cstring (drop 3 chunk).
Proof.
  intros Hlen. unfold fgets_store.
  rewrite drop_app_le by done. apply cstring_app_NUL.
Qed.

Lemma trace_addresses_filter scan file :
  Forall (λ chunk, (3 ≤ length chunk)%nat) file →
  ∀ buf1 buf2 addr,
    trace_addresses scan
      (filter (λ chunk, is_LSM (char_at chunk 1) = true) file) buf1 addr
    = trace_addresses scan file buf2 addr.
Proof.
  induction 1 as [| chunk rest Hlen _ IH]; intros buf1 buf2 addr; [done |].
  assert (Hne : chunk ≠ []) by (destruct chunk; [simpl in Hlen; lia | done]).
  rewrite filter_cons. cbn [trace_addresses]. cbn zeta.
  rewrite (char_at_fgets_store chunk buf2) by done.
  destruct (is_LSM (char_at chunk 1)) eqn:Hop.
  - rewrite decide_True by done. cbn [trace_addresses]. cbn zeta.
    rewrite char_at_fgets_store, Hop by done.
    rewrite !cstring_at_3_fgets_store by done.
    f_equal. apply IH.
  - rewrite decide_False by congruence. apply IH.
Qed.

(** X20: when every line of a trace has at least three characters, the
    lines whose character at offset 1 is none of [S], [L], [M] can be
    removed from the trace without changing what the replay computes,
    whatever the array [buf] held at entry. *)
Theorem skipped_lines_can_be_removed s b E scan file buf1 buf2 st :
  Forall (λ chunk, (3 ≤ length chunk)%nat) file →
  replayTrace s b E scan
    (filter (λ chunk, is_LSM (char_at chunk 1) = true) file) buf1 st
  = replayTrace s b E scan file buf2 st.
Proof.
  intros Hfile. unfold replayTrace. rewrite !replayTrace_loop_seq.
  by rewrite (trace_addresses_filter scan file Hfile buf1 buf2).
Qed.

Lemma skipped_lines_can_be_removed_witness :
  let file := map text_line [" L 10,1"; "I 0400d7d4,8"; " M 20,4";
                             "garbage"; " S 18,8"] in
  replayTrace 4 4 1 sscanf_model
    (filter (λ chunk, is_LSM (char_at chunk 1) = true) file) zero_buf
    (init_state 4 1)
  = replayTrace 4 4 1 sscanf_model file [] (init_state 4 1).
Proof.
  intros file. apply skipped_lines_can_be_removed.
  repeat constructor; simpl; lia.
Defined.
